(** * Orbital maneuvers: a shallow embedding of [orbital/maneuver.py]

    The module defines orbit-mutating operations (impulse operations, time
    operations, direct element rewrites) and [Maneuver], an ordered list of
    operations applied in place to one orbit.

    Python floats are read as real numbers ([R]): rounding is not modelled.
    The orbit object and the helpers of [orbital.utilities] live outside
    [maneuver.py]; they appear here either as section variables or as
    definitions marked "Modelled from the spec". *)

From Stdlib Require Import Reals Lra List String Bool Arith Lia.
Import ListNotations.
Open Scope R_scope.

(** ** Exceptions *)

(** The exceptions that can leave the code of [maneuver.py].  The message of
    a [TypeError] is dropped except for the tag that tells the two apart. *)
Inductive exn : Type :=
| TypeError_InvalidKwargs          (* raise TypeError('Invalid kwargs: ...') *)
| TypeError_RequiredArgumentMissing(* raise TypeError('Required argument missing.') *)
| ValueError_OnlyOneAnomaly        (* raise ValueError('Only one anomaly ...') *)
| KeyError_popitem                 (* {}.popitem() *)
| NotImplementedError
| AttributeError                   (* a method the object does not have *)
| UtilityError.                    (* anything raised inside orbital.utilities *)

(** ** The orbit *)

(** Modelled from the spec: the orbit ([KeplerianElements]) is defined outside
    [maneuver.py].  The spec lists it as a structure with readable and
    writable semi-major axis [a], eccentricity [e], mean anomaly [M], epoch
    [t], argument of pericenter [arg_pe] and an attached body with a
    [mean_radius]; [apocenter_radius], [pericenter_radius], [T], [n], [f],
    [E] and [v] are derived from these. *)
Record Orbit : Type := mkOrbit {
  a : R;
  e : R;
  M : R;
  t : R;
  arg_pe : R;
  body_mean_radius : R;
  body_mu : R
}.

(** Modelled from the spec: [apocenter_radius = a(1+e)]. *)
Definition apocenter_radius (orbit : Orbit) : R := a orbit * (1 + e orbit).

(** Modelled from the spec: [pericenter_radius = a(1-e)]. *)
Definition pericenter_radius (orbit : Orbit) : R := a orbit * (1 - e orbit).

Definition with_a (x : R) (o : Orbit) : Orbit :=
  mkOrbit x (e o) (M o) (t o) (arg_pe o) (body_mean_radius o) (body_mu o).
Definition with_e (x : R) (o : Orbit) : Orbit :=
  mkOrbit (a o) x (M o) (t o) (arg_pe o) (body_mean_radius o) (body_mu o).
Definition with_M (x : R) (o : Orbit) : Orbit :=
  mkOrbit (a o) (e o) x (t o) (arg_pe o) (body_mean_radius o) (body_mu o).
Definition with_t (x : R) (o : Orbit) : Orbit :=
  mkOrbit (a o) (e o) (M o) x (arg_pe o) (body_mean_radius o) (body_mu o).
Definition with_arg_pe (x : R) (o : Orbit) : Orbit :=
  mkOrbit (a o) (e o) (M o) (t o) x (body_mean_radius o) (body_mu o).

(** The attributes of the orbit that the module assigns to. *)
Inductive Attr : Type :=
| attr_a | attr_e | attr_M | attr_f | attr_t | attr_v | attr_arg_pe.

(** The orbit is one shared mutable object.  A [World] is that object together
    with the journal of attribute assignments made so far (most recent
    first); the journal is not visible to the program. *)
Record World : Type := mkWorld {
  orbit : Orbit;
  writes : list Attr
}.

(** ** Effects: state and exceptions *)

Definition Eff (A : Type) : Type := World -> (exn + A) * World.

Definition ret {A : Type} (x : A) : Eff A := fun w => (inr x, w).

Definition raise {A : Type} (ex : exn) : Eff A := fun w => (inl ex, w).

Definition bind {A B : Type} (c : Eff A) (k : A -> Eff B) : Eff B :=
  fun w =>
    match c w with
    | (inl ex, w') => (inl ex, w')
    | (inr x, w') => k x w'
    end.

Notation "x <- c ;; k" := (bind c (fun x => k))
  (at level 61, c at next level, right associativity).
Notation "c ;;; k" := (bind c (fun _ => k))
  (at level 61, right associativity).

(** Reading an attribute, or a property derived from the attributes. *)
Definition get {A : Type} (attr : Orbit -> A) : Eff A :=
  fun w => (inr (attr (orbit w)), w).

(** The result of a call into [orbital.utilities]. *)
Definition call {A : Type} (r : exn + A) : Eff A := fun w => (r, w).

(** Assigning an attribute. *)
Definition assign (attr : Attr) (upd : Orbit -> Orbit) : Eff unit :=
  fun w => (inr tt, mkWorld (upd (orbit w)) (attr :: writes w)).

Definition set_a (x : R) : Eff unit := assign attr_a (with_a x).
Definition set_e (x : R) : Eff unit := assign attr_e (with_e x).
Definition set_M (x : R) : Eff unit := assign attr_M (with_M x).
Definition set_t (x : R) : Eff unit := assign attr_t (with_t x).
Definition set_arg_pe (x : R) : Eff unit := assign attr_arg_pe (with_arg_pe x).

(** Modelled from the spec: [saved_state(orbit)], the scoped state-save and
    restore helper of [orbital.utilities].  The spec requires the snapshot
    taken on entry to be restored on every exit, normal or not. *)
Definition saved_state {A : Type} (body : Eff A) : Eff A :=
  fun w =>
    let state := orbit w in
    let (r, w') := body w in
    (r, mkWorld state (writes w')).

(** ** Keyword arguments of the time operations *)

Inductive AnomalyKey : Type := key_M | key_E | key_f.

Definition valid_args : list string := ["M"; "E"; "f"]%string.

Definition key_of_name (name : string) : option AnomalyKey :=
  if String.eqb name "f" then Some key_f
  else if String.eqb name "E" then Some key_E
  else if String.eqb name "M" then Some key_M
  else None.

Definition is_nil {A : Type} (l : list A) : bool :=
  match l with [] => true | _ :: _ => false end.

Definition is_not_None {A : Type} (x : option A) : bool :=
  match x with Some _ => true | None => false end.

(** [{key: value for key, value in kwargs.items() if value is not None}] *)
Fixpoint drop_None {A : Type} (kwargs : list (string * option A))
  : list (string * A) :=
  match kwargs with
  | [] => []
  | (key, Some value) :: rest => (key, value) :: drop_None rest
  | (_, None) :: rest => drop_None rest
  end.

(** [dict.popitem()]: the pair inserted last, [KeyError] on an empty dict. *)
Definition popitem {A : Type} (d : list (string * A)) : exn + (string * A) :=
  match rev d with
  | [] => inl KeyError_popitem
  | kv :: _ => inr kv
  end.

(** [sum(1 for x in kwargs.values() if x is not None)] *)
Definition count_not_None {A : Type} (kwargs : list (string * option A)) : nat :=
  List.length (filter is_not_None (map snd kwargs)).

(** The body shared, word for word, by [PropagateAnomalyTo.__init__] and
    [PropagateAnomalyBy.__init__]; [kwargs] is the keyword dictionary in
    insertion order.  The result is [(self.key, self.anomaly)]. *)
Definition anomaly_kwargs_init {A : Type} (kwargs : list (string * option A))
  : exn + (string * A) :=
  let extra_args :=
    filter (fun name => negb (existsb (String.eqb name) valid_args))
           (map fst kwargs) in
  if negb (is_nil extra_args) then inl TypeError_InvalidKwargs
  else if is_nil kwargs then inl TypeError_RequiredArgumentMissing
  else if (1 <? count_not_None kwargs)%nat then inl ValueError_OnlyOneAnomaly
  else popitem (drop_None kwargs).

Notation "' pat <- c ;; k" :=
  (bind c (fun x => match x with pat => k end))
  (at level 61, pat pattern, c at next level, right associativity).

(** Modelled from the spec: [ou.divmod], floor division with remainder, used
    for angle arithmetic as [divmod(x, 2π)]. *)
Definition divmod (x y : R) : R * R :=
  let q := IZR (Int_part (x / y)) in (q, x - q * y).

(** ** The operations *)

Inductive OpClass : Type :=
| class_Operation | class_ImpulseOperation | class_TimeOperation.

(** The collaborators that [maneuver.py] consumes from the rest of the
    package.  Velocities are values of a type [V] with [+] and [-];
    [orbit.v] is computed from the elements and assigning to it rewrites
    them; [T] is the period of an orbit.  Of the utilities only
    [elements_for_apsides] is given a way to raise: the anomaly conversions,
    [orbit.v] and [orbit.T] are taken at arguments where they return. *)
Class Collaborators : Type := {
  V : Type;
  vadd : V -> V -> V;
  vsub : V -> V -> V;
  v : Orbit -> V;
  set_velocity : V -> Orbit -> Orbit;
  elements_for_apsides : R -> R -> exn + (R * R);
  mean_anomaly_from_true : R -> R -> R;
  mean_anomaly_from_eccentric : R -> R -> R;
  true_anomaly_from_mean : R -> R -> R;
  T : Orbit -> R
}.

Section Maneuvers.

Context {K : Collaborators}.

(** Modelled from the spec: mean motion [n = 2π / T]. *)
Definition n (orbit : Orbit) : R := 2 * PI / T orbit.

(** Modelled from the spec: the true anomaly [f] is convertible from and to
    the mean anomaly given [e]. *)
Definition f (orbit : Orbit) : R := true_anomaly_from_mean (e orbit) (M orbit).

Definition set_f (x : R) : Eff unit :=
  assign attr_f (fun o => with_M (mean_anomaly_from_true (e o) x) o).

Definition set_v (x : V) : Eff unit := assign attr_v (set_velocity x).

(** *** SetApocenterRadiusTo *)

Definition SetApocenterRadiusTo_apply (self_apocenter_radius : R) : Eff unit :=
  rp <- get pericenter_radius ;;
  ' (a', e') <- call (elements_for_apsides self_apocenter_radius rp) ;;
  set_a a' ;;;
  set_e e'.

Definition SetApocenterRadiusTo_body (self_apocenter_radius : R) : Eff V :=
  set_M 0 ;;;
  old_velocity <- get v ;;
  rp <- get pericenter_radius ;;
  ' (a', e') <- call (elements_for_apsides self_apocenter_radius rp) ;;
  set_a a' ;;;
  set_e e' ;;;
  new_velocity <- get v ;;
  ret (vsub new_velocity old_velocity).

Definition SetApocenterRadiusTo_velocity_delta (self_apocenter_radius : R)
  : Eff V :=
  saved_state (SetApocenterRadiusTo_body self_apocenter_radius).

(** *** SetApocenterAltitudeTo *)

Definition SetApocenterAltitudeTo_apply (self_apocenter_altitude : R)
  : Eff unit :=
  mean_radius <- get body_mean_radius ;;
  rp <- get pericenter_radius ;;
  ' (a', e') <- call (elements_for_apsides
                        (mean_radius + self_apocenter_altitude) rp) ;;
  set_a a' ;;;
  set_e e'.

Definition SetApocenterAltitudeTo_body (self_apocenter_altitude : R) : Eff V :=
  set_M 0 ;;;
  old_velocity <- get v ;;
  mean_radius <- get body_mean_radius ;;
  rp <- get pericenter_radius ;;
  ' (a', e') <- call (elements_for_apsides
                        (mean_radius + self_apocenter_altitude) rp) ;;
  set_a a' ;;;
  set_e e' ;;;
  new_velocity <- get v ;;
  ret (vsub new_velocity old_velocity).

Definition SetApocenterAltitudeTo_velocity_delta (self_apocenter_altitude : R)
  : Eff V :=
  saved_state (SetApocenterAltitudeTo_body self_apocenter_altitude).

(** *** ChangeApocenterBy *)

Definition ChangeApocenterBy_apply (self_delta : R) : Eff unit :=
  ra <- get apocenter_radius ;;
  rp <- get pericenter_radius ;;
  ' (a', e') <- call (elements_for_apsides (ra + self_delta) rp) ;;
  set_a a' ;;;
  set_e e'.

Definition ChangeApocenterBy_body (self_delta : R) : Eff V :=
  set_M 0 ;;;
  old_velocity <- get v ;;
  ra <- get apocenter_radius ;;
  rp <- get pericenter_radius ;;
  ' (a', e') <- call (elements_for_apsides (ra + self_delta) rp) ;;
  set_a a' ;;;
  set_e e' ;;;
  new_velocity <- get v ;;
  ret (vsub new_velocity old_velocity).

Definition ChangeApocenterBy_velocity_delta (self_delta : R) : Eff V :=
  saved_state (ChangeApocenterBy_body self_delta).

(** *** SetPericenterRadiusTo *)

Definition SetPericenterRadiusTo_apply (self_pericenter_radius : R)
  : Eff unit :=
  ra <- get apocenter_radius ;;
  ' (a', e') <- call (elements_for_apsides ra self_pericenter_radius) ;;
  set_a a' ;;;
  set_e e'.

Definition SetPericenterRadiusTo_body (self_pericenter_radius : R) : Eff V :=
  set_M PI ;;;
  old_velocity <- get v ;;
  ra <- get apocenter_radius ;;
  ' (a', e') <- call (elements_for_apsides ra self_pericenter_radius) ;;
  set_a a' ;;;
  set_e e' ;;;
  new_velocity <- get v ;;
  ret (vsub new_velocity old_velocity).

Definition SetPericenterRadiusTo_velocity_delta (self_pericenter_radius : R)
  : Eff V :=
  saved_state (SetPericenterRadiusTo_body self_pericenter_radius).

(** *** SetPericenterAltitudeTo *)

Definition SetPericenterAltitudeTo_apply (self_pericenter_altitude : R)
  : Eff unit :=
  mean_radius <- get body_mean_radius ;;
  ra <- get apocenter_radius ;;
  ' (a', e') <- call (elements_for_apsides
                        ra (mean_radius + self_pericenter_altitude)) ;;
  set_a a' ;;;
  set_e e'.

Definition SetPericenterAltitudeTo_body (self_pericenter_altitude : R)
  : Eff V :=
  set_M PI ;;;
  old_velocity <- get v ;;
  mean_radius <- get body_mean_radius ;;
  ra <- get apocenter_radius ;;
  ' (a', e') <- call (elements_for_apsides
                        ra (mean_radius + self_pericenter_altitude)) ;;
  set_a a' ;;;
  set_e e' ;;;
  new_velocity <- get v ;;
  ret (vsub new_velocity old_velocity).

Definition SetPericenterAltitudeTo_velocity_delta
  (self_pericenter_altitude : R) : Eff V :=
  saved_state (SetPericenterAltitudeTo_body self_pericenter_altitude).

(** *** ChangePericenterBy *)

Definition ChangePericenterBy_apply (self_delta : R) : Eff unit :=
  ra <- get apocenter_radius ;;
  rp <- get pericenter_radius ;;
  ' (a', e') <- call (elements_for_apsides ra (rp + self_delta)) ;;
  set_a a' ;;;
  set_e e'.

Definition ChangePericenterBy_body (self_delta : R) : Eff V :=
  set_M PI ;;;
  old_velocity <- get v ;;
  ra <- get apocenter_radius ;;
  rp <- get pericenter_radius ;;
  ' (a', e') <- call (elements_for_apsides ra (rp + self_delta)) ;;
  set_a a' ;;;
  set_e e' ;;;
  new_velocity <- get v ;;
  ret (vsub new_velocity old_velocity).

Definition ChangePericenterBy_velocity_delta (self_delta : R) : Eff V :=
  saved_state (ChangePericenterBy_body self_delta).

(** *** Circularise *)

Definition Circularise_apply (self_raise_pericenter : bool) : Eff unit :=
  radius <- (if self_raise_pericenter
             then get apocenter_radius
             else get pericenter_radius) ;;
  ' (a', e') <- call (elements_for_apsides radius radius) ;;
  set_a a' ;;;
  set_e e'.

Definition Circularise_body (self_raise_pericenter : bool) : Eff V :=
  radius <- (if self_raise_pericenter
             then set_M PI ;;; get apocenter_radius
             else set_M 0 ;;; get pericenter_radius) ;;
  old_velocity <- get v ;;
  ' (a', e') <- call (elements_for_apsides radius radius) ;;
  set_a a' ;;;
  set_e e' ;;;
  new_velocity <- get v ;;
  ret (vsub new_velocity old_velocity).

Definition Circularise_velocity_delta (self_raise_pericenter : bool) : Eff V :=
  saved_state (Circularise_body self_raise_pericenter).

(** *** SetPericenterHere *)

Definition SetPericenterHere_apply : Eff unit :=
  f0 <- get f ;;
  set_arg_pe f0 ;;;
  set_f 0.

(** *** PropagateAnomalyTo and PropagateAnomalyBy *)

(** [time_delta] only reads the orbit.  The constructor has checked the
    keyword, so [self.key] is one of the three names. *)
Definition PropagateAnomalyTo_time_delta
  (self_key : AnomalyKey) (self_anomaly : R) (orbit : Orbit) : R :=
  let M0 :=
    match self_key with
    | key_f => mean_anomaly_from_true (e orbit) self_anomaly
    | key_E => mean_anomaly_from_eccentric (e orbit) self_anomaly
    | key_M => self_anomaly
    end in
  let M1 := if Rlt_dec M0 (M orbit) then M0 + 2 * PI else M0 in
  (M1 - M orbit) / n orbit.

Definition PropagateAnomalyBy_time_delta
  (self_key : AnomalyKey) (self_anomaly : R) (orbit : Orbit) : R :=
  match self_key with
  | key_f =>
      let (orbits, f1) := divmod self_anomaly (2 * PI) in
      let M1 := mean_anomaly_from_true (e orbit) f1 in
      orbits * T orbit + M1 / n orbit
  | key_E =>
      let (orbits, E1) := divmod self_anomaly (2 * PI) in
      let M1 := mean_anomaly_from_eccentric (e orbit) E1 in
      orbits * T orbit + M1 / n orbit
  | key_M => self_anomaly / n orbit
  end.

(** *** Operation objects *)

(** An operation object is one of the classes of the module or an instance of
    a class defined elsewhere: such an object has a base class, may or may
    not have a callable [__apply__], and brings its own [velocity_delta] and
    [time_delta]. *)
Inductive Operation : Type :=
| SetApocenterRadiusTo (apocenter_radius : R)
| SetApocenterAltitudeTo (apocenter_altitude : R)
| ChangeApocenterBy (delta : R)
| SetPericenterRadiusTo (pericenter_radius : R)
| SetPericenterAltitudeTo (pericenter_altitude : R)
| ChangePericenterBy (delta : R)
| PropagateAnomalyTo (key : AnomalyKey) (anomaly : R)
| PropagateAnomalyBy (key : AnomalyKey) (anomaly : R)
| Circularise (raise_pericenter : bool)
| SetPericenterHere
| OtherOperation (cls : OpClass) (direct : option (Eff unit))
                 (impulse : Eff V) (duration : Eff R).

(** Calling the class [PropagateAnomalyTo] or [PropagateAnomalyBy] with
    keyword arguments: [__init__] runs, then the object exists. *)
Definition make_time_operation
  (class : AnomalyKey -> R -> Operation) (kwargs : list (string * option R))
  : exn + Operation :=
  match anomaly_kwargs_init kwargs with
  | inl ex => inl ex
  | inr (name, anomaly) =>
      match key_of_name name with
      | Some key => inr (class key anomaly)
      | None => inl TypeError_InvalidKwargs
      end
  end.

Definition new_PropagateAnomalyTo := make_time_operation PropagateAnomalyTo.
Definition new_PropagateAnomalyBy := make_time_operation PropagateAnomalyBy.

(** [Circularise()] : [raise_pericenter] defaults to [True]. *)
Definition new_Circularise (raise_pericenter : option bool) : Operation :=
  match raise_pericenter with
  | Some b => Circularise b
  | None => Circularise true
  end.

(** [getattr(operation, '__apply__')] when the attribute exists and is
    callable. *)
Definition get___apply__ (operation : Operation) : option (Eff unit) :=
  match operation with
  | SetApocenterRadiusTo r => Some (SetApocenterRadiusTo_apply r)
  | SetApocenterAltitudeTo h => Some (SetApocenterAltitudeTo_apply h)
  | ChangeApocenterBy d => Some (ChangeApocenterBy_apply d)
  | SetPericenterRadiusTo r => Some (SetPericenterRadiusTo_apply r)
  | SetPericenterAltitudeTo h => Some (SetPericenterAltitudeTo_apply h)
  | ChangePericenterBy d => Some (ChangePericenterBy_apply d)
  | PropagateAnomalyTo _ _ => None
  | PropagateAnomalyBy _ _ => None
  | Circularise b => Some (Circularise_apply b)
  | SetPericenterHere => Some SetPericenterHere_apply
  | OtherOperation _ direct _ _ => direct
  end.

Definition base_class (operation : Operation) : OpClass :=
  match operation with
  | SetApocenterRadiusTo _ | SetApocenterAltitudeTo _ | ChangeApocenterBy _
  | SetPericenterRadiusTo _ | SetPericenterAltitudeTo _ | ChangePericenterBy _
  | Circularise _ => class_ImpulseOperation
  | PropagateAnomalyTo _ _ | PropagateAnomalyBy _ _ => class_TimeOperation
  | SetPericenterHere => class_Operation
  | OtherOperation cls _ _ _ => cls
  end.

Definition isinstance_ImpulseOperation (operation : Operation) : bool :=
  match base_class operation with class_ImpulseOperation => true | _ => false end.

Definition isinstance_TimeOperation (operation : Operation) : bool :=
  match base_class operation with class_TimeOperation => true | _ => false end.

(** [operation.velocity_delta(orbit)] *)
Definition velocity_delta (operation : Operation) : Eff V :=
  match operation with
  | SetApocenterRadiusTo r => SetApocenterRadiusTo_velocity_delta r
  | SetApocenterAltitudeTo h => SetApocenterAltitudeTo_velocity_delta h
  | ChangeApocenterBy d => ChangeApocenterBy_velocity_delta d
  | SetPericenterRadiusTo r => SetPericenterRadiusTo_velocity_delta r
  | SetPericenterAltitudeTo h => SetPericenterAltitudeTo_velocity_delta h
  | ChangePericenterBy d => ChangePericenterBy_velocity_delta d
  | Circularise b => Circularise_velocity_delta b
  | OtherOperation _ _ impulse _ => impulse
  | PropagateAnomalyTo _ _ | PropagateAnomalyBy _ _ | SetPericenterHere =>
      raise AttributeError
  end.

(** [operation.time_delta(orbit)] *)
Definition time_delta (operation : Operation) : Eff R :=
  match operation with
  | PropagateAnomalyTo key anomaly =>
      get (PropagateAnomalyTo_time_delta key anomaly)
  | PropagateAnomalyBy key anomaly =>
      get (PropagateAnomalyBy_time_delta key anomaly)
  | OtherOperation _ _ _ duration => duration
  | _ => raise AttributeError
  end.

(** ** Maneuver *)

Record Maneuver : Type := mkManeuver { operations : list Operation }.

(** [Maneuver.__init__]: a single operation is wrapped into a list. *)
Definition new_Maneuver (arg : Operation + list Operation) : Maneuver :=
  match arg with
  | inl operation => mkManeuver [operation]
  | inr ops => mkManeuver ops
  end.

(** One turn of the loop of [Maneuver.__apply__]. *)
Definition apply_operation (operation : Operation) : Eff unit :=
  match get___apply__ operation with
  | Some direct => direct
  | None =>
      if isinstance_ImpulseOperation operation then
        v0 <- get v ;;
        dv <- velocity_delta operation ;;
        set_v (vadd v0 dv)
      else if isinstance_TimeOperation operation then
        t0 <- get t ;;
        dt <- time_delta operation ;;
        set_t (t0 + dt)
      else ret tt
  end.

Fixpoint apply_operations (ops : list Operation) : Eff unit :=
  match ops with
  | [] => ret tt
  | operation :: rest => apply_operation operation ;;; apply_operations rest
  end.

Definition Maneuver_apply (self : Maneuver) : Eff unit :=
  apply_operations (operations self).

(** The named constructors.  Each builds its operations left to right; a
    failing operation constructor aborts the factory. *)
Definition with_time_operation
  (op : exn + Operation) (k : Operation -> list Operation) : exn + Maneuver :=
  match op with
  | inl ex => inl ex
  | inr p => inr (new_Maneuver (inr (k p)))
  end.

Definition set_apocenter_radius_to (apocenter_radius : R) : exn + Maneuver :=
  with_time_operation (new_PropagateAnomalyTo [("M"%string, Some 0)])
    (fun p => [p; SetApocenterRadiusTo apocenter_radius]).

Definition set_pericenter_radius_to (pericenter_radius : R) : exn + Maneuver :=
  with_time_operation (new_PropagateAnomalyTo [("M"%string, Some PI)])
    (fun p => [p; SetPericenterRadiusTo pericenter_radius]).

Definition set_apocenter_altitude_to (apocenter_altitude : R)
  : exn + Maneuver :=
  with_time_operation (new_PropagateAnomalyTo [("M"%string, Some 0)])
    (fun p => [p; SetApocenterAltitudeTo apocenter_altitude]).

Definition set_pericenter_altitude_to (pericenter_altitude : R)
  : exn + Maneuver :=
  with_time_operation (new_PropagateAnomalyTo [("M"%string, Some PI)])
    (fun p => [p; SetPericenterAltitudeTo pericenter_altitude]).

Definition change_apocenter_by (delta : R) : exn + Maneuver :=
  with_time_operation (new_PropagateAnomalyTo [("M"%string, Some 0)])
    (fun p => [p; ChangeApocenterBy delta]).

Definition change_pericenter_by (delta : R) : exn + Maneuver :=
  with_time_operation (new_PropagateAnomalyTo [("M"%string, Some PI)])
    (fun p => [p; ChangePericenterBy delta]).

Definition hohmann_transfer_to (target : Orbit) : exn + Maneuver :=
  with_time_operation (new_PropagateAnomalyTo [("M"%string, Some PI)])
    (fun p => [SetPericenterHere;
               SetApocenterRadiusTo (apocenter_radius target);
               p;
               new_Circularise None]).

(** [bielliptic_transfer] runs in a world that holds an orbit, and raises at
    once. *)
Definition bielliptic_transfer : Eff Maneuver := raise NotImplementedError.

End Maneuvers.

(** ** What the claims speak about *)

(** Some keyword of the call is not one of [M], [E], [f]. *)
Definition unknown_keyword {A : Type} (kwargs : list (string * option A))
  : Prop :=
  exists name, In name (map fst kwargs) /\ ~ In name valid_args.

(** The keyword arguments are invalid: an unknown keyword, no anomaly that is
    not [None], or more than one. *)
Definition invalid_kwargs {A : Type} (kwargs : list (string * option A))
  : Prop :=
  unknown_keyword kwargs
  \/ count_not_None kwargs = 0%nat
  \/ (1 < count_not_None kwargs)%nat.

(** The branch of the loop body of [Maneuver.__apply__] that an operation
    takes. *)
Inductive Branch : Type :=
| DirectRewrite | VelocityDelta | TimeDelta | Skipped.

Definition branch_taken {K : Collaborators} (operation : Operation) : Branch :=
  match get___apply__ operation with
  | Some _ => DirectRewrite
  | None =>
      if isinstance_ImpulseOperation operation then VelocityDelta
      else if isinstance_TimeOperation operation then TimeDelta
      else Skipped
  end.

(** The operation classes that [maneuver.py] itself defines. *)
Definition defined_here {K : Collaborators} (operation : Operation) : bool :=
  match operation with
  | OtherOperation _ _ _ _ => false
  | _ => true
  end.

(** The impulse operations of the module: the six apsis operations and
    [Circularise]. *)
Definition impulse_here {K : Collaborators} (operation : Operation) : bool :=
  match operation with
  | SetApocenterRadiusTo _ | SetApocenterAltitudeTo _ | ChangeApocenterBy _
  | SetPericenterRadiusTo _ | SetPericenterAltitudeTo _ | ChangePericenterBy _
  | Circularise _ => true
  | _ => false
  end.

(** The block under [with saved_state(orbit):] in [velocity_delta]. *)
Definition velocity_delta_body {K : Collaborators} (operation : Operation)
  : Eff V :=
  match operation with
  | SetApocenterRadiusTo r => SetApocenterRadiusTo_body r
  | SetApocenterAltitudeTo h => SetApocenterAltitudeTo_body h
  | ChangeApocenterBy d => ChangeApocenterBy_body d
  | SetPericenterRadiusTo r => SetPericenterRadiusTo_body r
  | SetPericenterAltitudeTo h => SetPericenterAltitudeTo_body h
  | ChangePericenterBy d => ChangePericenterBy_body d
  | Circularise b => Circularise_body b
  | _ => raise AttributeError
  end.

(** The anomaly of the apside at which [velocity_delta] samples the
    velocities: [orbit.M = 0] or [orbit.M = pi]. *)
Definition apside_anomaly {K : Collaborators} (operation : Operation) : R :=
  match operation with
  | SetApocenterRadiusTo _ | SetApocenterAltitudeTo _ | ChangeApocenterBy _
  | Circularise false => 0
  | _ => PI
  end.

(** The impulse path as section 4.3 of the specification words it: compute
    [velocity_delta(orbit)] and add it to [orbit.v]. *)
Definition apply_velocity_delta {K : Collaborators} (operation : Operation)
  : Eff unit :=
  v0 <- get v ;;
  dv <- velocity_delta operation ;;
  set_v (vadd v0 dv).

(** The pair [(a, e)] of an orbit. *)
Definition elements (o : Orbit) : R * R := (a o, e o).

(** The time delta as section 4.2 of the specification words it for
    [PropagateAnomalyBy]: floor-divide the amount by 2π, convert only the
    remainder to mean anomaly, return [whole_orbits * T + M_remainder / n]. *)
Definition to_mean_anomaly {K : Collaborators}
  (key : AnomalyKey) (ecc x : R) : R :=
  match key with
  | key_f => mean_anomaly_from_true ecc x
  | key_E => mean_anomaly_from_eccentric ecc x
  | key_M => x
  end.

Definition time_delta_by_spec {K : Collaborators}
  (key : AnomalyKey) (amount : R) (o : Orbit) : R :=
  let (whole_orbits, remainder) := divmod amount (2 * PI) in
  whole_orbits * T o + to_mean_anomaly key (e o) remainder / n o.

(** A computation never assigns [orbit.v]: whatever it adds to the journal
    holds no [attr_v]. *)
Definition never_assigns_v {A : Type} (c : Eff A) : Prop :=
  forall w, exists new,
    writes (snd (c w)) = new ++ writes w /\ ~ In attr_v new.

(** Modelled from the spec: [elements_for_apsides(apocenter_radius,
    pericenter_radius)] converts a pair of apsides to the [(a, e)] whose
    apocenter radius [a(1+e)] and pericenter radius [a(1-e)] they are.  Radii
    that are no apsides of an ellipse are left to the utility. *)
Definition converts_apsides {K : Collaborators} : Prop :=
  forall ra rp, 0 < rp -> rp <= ra ->
    exists a' e', elements_for_apsides ra rp = inr (a', e')
                  /\ a' * (1 + e') = ra /\ a' * (1 - e') = rp.

(** The range [0, 2π) of an anomaly. *)
Definition principal (x : R) : Prop := 0 <= x < 2 * PI.

(** The two radii that the direct rewrite of an impulse operation hands to
    [elements_for_apsides], apocenter first. *)
Definition requested_apsides {K : Collaborators}
  (operation : Operation) (o : Orbit) : R * R :=
  match operation with
  | SetApocenterRadiusTo r => (r, pericenter_radius o)
  | SetApocenterAltitudeTo h => (body_mean_radius o + h, pericenter_radius o)
  | ChangeApocenterBy d => (apocenter_radius o + d, pericenter_radius o)
  | SetPericenterRadiusTo r => (apocenter_radius o, r)
  | SetPericenterAltitudeTo h => (apocenter_radius o, body_mean_radius o + h)
  | ChangePericenterBy d => (apocenter_radius o, pericenter_radius o + d)
  | Circularise true => (apocenter_radius o, apocenter_radius o)
  | Circularise false => (pericenter_radius o, pericenter_radius o)
  | _ => (apocenter_radius o, pericenter_radius o)
  end.

(** The impulse operations whose target does not depend on the apsis they
    move: the four setters and [Circularise]. *)
Definition sets_apsis {K : Collaborators} (operation : Operation) : bool :=
  match operation with
  | SetApocenterRadiusTo _ | SetApocenterAltitudeTo _
  | SetPericenterRadiusTo _ | SetPericenterAltitudeTo _
  | Circularise _ => true
  | _ => false
  end.

(** The named constructor of [Maneuver] that wraps an apsis operation:
    [set_apocenter_radius_to] for [SetApocenterRadiusTo], and so on.
    [Circularise] and the other operations have none. *)
Definition named_constructor {K : Collaborators} (operation : Operation)
  : option (exn + Maneuver) :=
  match operation with
  | SetApocenterRadiusTo r => Some (set_apocenter_radius_to r)
  | SetApocenterAltitudeTo h => Some (set_apocenter_altitude_to h)
  | ChangeApocenterBy d => Some (change_apocenter_by d)
  | SetPericenterRadiusTo r => Some (set_pericenter_radius_to r)
  | SetPericenterAltitudeTo h => Some (set_pericenter_altitude_to h)
  | ChangePericenterBy d => Some (change_pericenter_by d)
  | _ => None
  end.

(** An impulse operation with its [__apply__] shortcut taken away: an
    instance of a subclass of [ImpulseOperation] that has the operation's
    [velocity_delta], no [__apply__] and no [time_delta]. *)
Definition without_apply {K : Collaborators} (operation : Operation)
  : Operation :=
  OtherOperation class_ImpulseOperation None (velocity_delta operation)
                 (raise AttributeError).

(** Velocities add and subtract as vectors do. *)
Definition velocity_arithmetic {K : Collaborators} : Prop :=
  forall x y : V, vadd x (vsub y x) = y.

(** Modelled from the spec: assigning [orbit.v] keeps the elements
    consistent with two-body motion, so the orbit takes the elements of the
    Keplerian orbit through its present position with the assigned
    velocity.  At an apside the position is given by the apsis radius:
    an elliptical orbit at its pericenter ([M = 0]) that is assigned the
    velocity of an ellipse with the same pericenter radius, or at its
    apocenter ([M = pi]) that of an ellipse with the same apocenter radius,
    takes the elements of that ellipse. *)
Definition setter_recovers_elements {K : Collaborators} : Prop :=
  forall (o : Orbit) (a' e' : R),
    0 < body_mu o -> 0 < a o -> 0 <= e o < 1 ->
    0 < a' -> 0 <= e' < 1 ->
    (M o = 0 /\ a' * (1 - e') = pericenter_radius o)
    \/ (M o = PI /\ a' * (1 + e') = apocenter_radius o) ->
    elements (set_velocity (v (with_e e' (with_a a' o))) o) = (a', e').

(** The exceptions that [__init__] raises on purpose for bad arguments: its
    two [TypeError]s and its [ValueError]. *)
Definition argument_error (ex : exn) : bool :=
  match ex with
  | TypeError_InvalidKwargs
  | TypeError_RequiredArgumentMissing
  | ValueError_OnlyOneAnomaly => true
  | _ => false
  end.

(** ** A two-body instance of the collaborators *)

(** Modelled from the spec: unperturbed two-body Keplerian motion, in the
    orbital plane.  Velocities are (radial, transverse) pairs.  The true
    anomaly is taken from the mean anomaly to first order in [e], which is
    exact at the two apsides. *)
Definition kepler_true_from_mean (ecc Mean : R) : R :=
  Mean + 2 * ecc * sin Mean.

Definition kepler_mean_from_eccentric (ecc Ecc : R) : R :=
  Ecc - ecc * sin Ecc.

Definition kepler_mean_from_true (ecc true : R) : R :=
  kepler_mean_from_eccentric ecc
    (2 * atan (sqrt ((1 - ecc) / (1 + ecc)) * tan (true / 2))).

(** Modelled from the spec: [orbit.v], the velocity of two-body motion at
    the present anomaly. *)
Definition kepler_v (o : Orbit) : R * R :=
  let nu := kepler_true_from_mean (e o) (M o) in
  let k := sqrt (body_mu o / (a o * (1 - e o * e o))) in
  (k * (e o * sin nu), k * (1 + e o * cos nu)).

(** Modelled from the spec: assigning [orbit.v].  The position stays; the
    semi-major axis follows from the energy (vis-viva) and the eccentricity
    from the angular momentum. *)
Definition kepler_set_velocity (vel : R * R) (o : Orbit) : Orbit :=
  let nu := kepler_true_from_mean (e o) (M o) in
  let r := a o * (1 - e o * e o) / (1 + e o * cos nu) in
  let speed2 := fst vel * fst vel + snd vel * snd vel in
  let a' := / (2 / r - speed2 / body_mu o) in
  let p' := (r * snd vel) * (r * snd vel) / body_mu o in
  with_e (sqrt (1 - p' / a')) (with_a a' o).

Definition kepler_elements_for_apsides (ra rp : R) : exn + (R * R) :=
  inr ((ra + rp) / 2, (ra - rp) / (ra + rp)).

Definition kepler_T (o : Orbit) : R :=
  2 * PI * sqrt (a o * a o * a o / body_mu o).

(** An instance whose utility refuses radii that are no apsides of an
    ellipse. *)
Definition guarded_elements_for_apsides (ra rp : R) : exn + (R * R) :=
  if Rlt_dec 0 rp then
    if Rle_dec rp ra then kepler_elements_for_apsides ra rp
    else inl UtilityError
  else inl UtilityError.

#[local] Instance guarded : Collaborators | 100 := {
  V := R * R;
  vadd := fun x y => (fst x + fst y, snd x + snd y);
  vsub := fun x y => (fst x - fst y, snd x - snd y);
  v := kepler_v;
  set_velocity := kepler_set_velocity;
  elements_for_apsides := guarded_elements_for_apsides;
  mean_anomaly_from_true := kepler_mean_from_true;
  mean_anomaly_from_eccentric := kepler_mean_from_eccentric;
  true_anomaly_from_mean := kepler_true_from_mean;
  T := kepler_T
}.

#[local] Instance kepler : Collaborators := {
  V := R * R;
  vadd := fun x y => (fst x + fst y, snd x + snd y);
  vsub := fun x y => (fst x - fst y, snd x - snd y);
  v := kepler_v;
  set_velocity := kepler_set_velocity;
  elements_for_apsides := kepler_elements_for_apsides;
  mean_anomaly_from_true := kepler_mean_from_true;
  mean_anomaly_from_eccentric := kepler_mean_from_eccentric;
  true_anomaly_from_mean := kepler_true_from_mean;
  T := kepler_T
}.

(** A circular orbit of radius 1 about a body with [mu = 1], and an ellipse
    with apsides 3 and 1. *)
Definition unit_circle : Orbit := mkOrbit 1 0 0 0 0 0 1.
Definition ellipse_3_1 : Orbit := mkOrbit 2 (1 / 2) 0 0 0 0 1.

(** * Properties *)

(** ** Keyword validation *)

Lemma valid_name_iff (name : string) :
  existsb (String.eqb name) valid_args = true <-> In name valid_args.
Proof.
  rewrite existsb_exists. split.
  - intros [x [Hin Heq]]. apply String.eqb_eq in Heq. now subst.
  - intros Hin. exists name. split; [assumption | apply String.eqb_refl].
Qed.

Lemma valid_name_has_key (name : string) :
  In name valid_args -> exists key, key_of_name name = Some key.
Proof.
  unfold valid_args. simpl.
  intros [<- | [<- | [<- | []]]]; eexists; reflexivity.
Qed.

Lemma filter_nil_iff {A : Type} (p : A -> bool) (l : list A) :
  filter p l = [] <-> forall x, In x l -> p x = false.
Proof.
  induction l as [| y l IH]; simpl.
  - split; [intros _ x [] | reflexivity].
  - destruct (p y) eqn:Hp.
    + split; [discriminate |].
      intros H. specialize (H y (or_introl eq_refl)). congruence.
    + split.
      * intros H x [<- | Hin]; [assumption | now apply IH].
      * intros H. apply IH. intros x Hin. apply H. now right.
Qed.

Lemma no_extra_args_iff {A : Type} (kwargs : list (string * option A)) :
  filter (fun name => negb (existsb (String.eqb name) valid_args))
         (map fst kwargs) = []
  <-> ~ unknown_keyword kwargs.
Proof.
  rewrite filter_nil_iff. unfold unknown_keyword. split.
  - intros H [name [Hin Hbad]]. apply Hbad. apply valid_name_iff.
    apply H in Hin. now apply negb_false_iff in Hin.
  - intros H name Hin. apply negb_false_iff.
    destruct (existsb (String.eqb name) valid_args) eqn:Hv; [reflexivity |].
    exfalso. apply H. exists name. split; [assumption |].
    intros Hvalid. apply valid_name_iff in Hvalid. congruence.
Qed.

Lemma count_not_None_drop {A : Type} (kwargs : list (string * option A)) :
  count_not_None kwargs = List.length (drop_None kwargs).
Proof.
  unfold count_not_None.
  induction kwargs as [| [name [x |]] rest IH]; simpl; congruence.
Qed.

Lemma drop_None_In {A : Type} (kwargs : list (string * option A)) name x :
  In (name, x) (drop_None kwargs) -> In (name, Some x) kwargs.
Proof.
  induction kwargs as [| [name' [x' |]] rest IH]; simpl; intros H.
  - assumption.
  - destruct H as [H | H]; [left; congruence | right; auto].
  - right; auto.
Qed.

Lemma popitem_single {A : Type} (kv : string * A) :
  popitem [kv] = inr kv.
Proof. reflexivity. Qed.

(** The calls named in the specification. *)
Example init_no_keyword :
  anomaly_kwargs_init (A := R) [] = inl TypeError_RequiredArgumentMissing.
Proof. reflexivity. Qed.

Example init_two_anomalies :
  anomaly_kwargs_init [("M", Some 0.1); ("f", Some 0.2)]%string
  = inl ValueError_OnlyOneAnomaly.
Proof. reflexivity. Qed.

Example init_one_anomaly_two_None :
  anomaly_kwargs_init [("M", None); ("E", Some 0.1); ("f", None)]%string
  = inr ("E"%string, 0.1).
Proof. reflexivity. Qed.

Example init_all_None :
  anomaly_kwargs_init (A := R) [("M", None); ("f", None)]%string
  = inl KeyError_popitem.
Proof. reflexivity. Qed.

Example init_unknown_keyword :
  anomaly_kwargs_init [("M", Some 0.1); ("nu", None)]%string
  = inl TypeError_InvalidKwargs.
Proof. reflexivity. Qed.

(** What [__init__] leaves in [self.key] and [self.anomaly], or raises. *)
Lemma anomaly_kwargs_init_cases {A : Type} (kwargs : list (string * option A)) :
  (invalid_kwargs kwargs /\ exists ex, anomaly_kwargs_init kwargs = inl ex)
  \/ (~ invalid_kwargs kwargs /\
      exists name x, anomaly_kwargs_init kwargs = inr (name, x)
                     /\ In (name, Some x) kwargs /\ In name valid_args
                     /\ drop_None kwargs = [(name, x)]).
Proof.
  unfold anomaly_kwargs_init, invalid_kwargs.
  destruct (filter _ (map fst kwargs)) as [| bad rest] eqn:Hextra; simpl.
  - apply no_extra_args_iff in Hextra.
    destruct kwargs as [| kv kwargs']; simpl is_nil; cbv iota.
    + left. split; [right; left; reflexivity | eauto].
    + set (kw := kv :: kwargs') in *.
      destruct (1 <? count_not_None kw)%nat eqn:Hcount.
      * apply Nat.ltb_lt in Hcount. left. split; [auto | eauto].
      * apply Nat.ltb_ge in Hcount.
        pose proof (count_not_None_drop kw) as Hlen.
        destruct (drop_None kw) as [| [name x] [| kv2 more]] eqn:Hdrop;
          simpl in Hlen.
        -- left. split; [right; left; assumption | ].
           exists KeyError_popitem. reflexivity.
        -- right. split.
           ++ intros [Hu | [Hz | Hm]]; [contradiction | lia | lia].
           ++ exists name, x. rewrite popitem_single.
              assert (Hin : In (name, Some x) kw).
              { apply drop_None_In. rewrite Hdrop. now left. }
              repeat split; try assumption.
              destruct (in_dec string_dec name valid_args) as [Hv | Hv];
                [assumption | exfalso].
              apply Hextra. exists name. split; [| assumption].
              apply in_map_iff. exists (name, Some x). auto.
        -- exfalso. lia.
  - left. split; [| eauto].
    left. exists bad.
    assert (Hin : In bad (bad :: rest)) by now left.
    rewrite <- Hextra in Hin. apply filter_In in Hin as [Hin Hbad].
    split; [assumption |].
    intros Hvalid. apply valid_name_iff in Hvalid.
    rewrite Hvalid in Hbad. discriminate.
Qed.

(** Which exception [__init__] raises. *)
Lemma anomaly_kwargs_init_exception {A : Type}
  (kwargs : list (string * option A)) :
  (unknown_keyword kwargs ->
   anomaly_kwargs_init kwargs = inl TypeError_InvalidKwargs)
  /\ (~ unknown_keyword kwargs -> kwargs = [] ->
      anomaly_kwargs_init kwargs = inl TypeError_RequiredArgumentMissing)
  /\ (~ unknown_keyword kwargs -> (1 < count_not_None kwargs)%nat ->
      anomaly_kwargs_init kwargs = inl ValueError_OnlyOneAnomaly)
  /\ (~ unknown_keyword kwargs -> kwargs <> [] ->
      count_not_None kwargs = 0%nat ->
      anomaly_kwargs_init kwargs = inl KeyError_popitem).
Proof.
  unfold anomaly_kwargs_init. cbv zeta.
  destruct (filter _ (map fst kwargs)) as [| bad rest] eqn:Hextra.
  - assert (Hno : ~ unknown_keyword kwargs) by now apply no_extra_args_iff.
    simpl negb. cbv iota.
    repeat split.
    + intros Hu. contradiction.
    + intros _ ->. reflexivity.
    + intros _ Hmany. destruct kwargs as [| kv rest].
      * unfold count_not_None in Hmany. simpl in Hmany. lia.
      * simpl is_nil. cbv iota.
        apply Nat.ltb_lt in Hmany. now rewrite Hmany.
    + intros _ Hne Hzero. destruct kwargs as [| kv rest]; [congruence |].
      simpl is_nil. cbv iota. rewrite Hzero. simpl Nat.ltb. cbv iota.
      rewrite count_not_None_drop in Hzero.
      destruct (drop_None (kv :: rest)); [reflexivity | discriminate].
  - assert (Hu : unknown_keyword kwargs).
    { exists bad.
      assert (Hin : In bad (bad :: rest)) by now left.
      rewrite <- Hextra in Hin. apply filter_In in Hin as [Hin Hbad].
      split; [assumption |].
      intros Hvalid. apply valid_name_iff in Hvalid.
      rewrite Hvalid in Hbad. discriminate. }
    simpl. repeat split; intros; try contradiction; reflexivity.
Qed.

Section Properties.

Context {K : Collaborators}.

Lemma make_time_operation_cases
  (class : AnomalyKey -> R -> Operation) (kwargs : list (string * option R)) :
  (invalid_kwargs kwargs /\ exists ex, make_time_operation class kwargs = inl ex)
  \/ (~ invalid_kwargs kwargs /\
      exists name key x,
        make_time_operation class kwargs = inr (class key x)
        /\ In (name, Some x) kwargs /\ key_of_name name = Some key).
Proof.
  unfold make_time_operation.
  destruct (anomaly_kwargs_init_cases kwargs)
    as [[Hbad [ex ->]] | [Hok [name [x [-> [Hin [Hvalid _]]]]]]].
  - left. eauto.
  - right. split; [assumption |].
    destruct (valid_name_has_key name Hvalid) as [key Hkey].
    exists name, key, x. rewrite Hkey. auto.
Qed.

(** Constructing [PropagateAnomalyTo] or [PropagateAnomalyBy] is a pure
    computation on the keyword arguments (no orbit takes part in it), and it
    raises if and only if the keyword arguments are invalid: an unknown
    keyword, no anomaly other than [None] (the empty call and the call whose
    values are all [None] alike), or more than one anomaly other than
    [None].  A valid call yields the object holding the one anomaly given;
    in particular one anomaly with the other two passed as [None]
    succeeds.  The exception is a [TypeError] for an unknown keyword and
    for the empty call, a [ValueError] for more than one anomaly, and the
    [KeyError] of [popitem] when every value is [None]. *)
Theorem time_operation_construction_raises_iff_invalid
  (kwargs : list (string * option R)) :
  ((exists ex, new_PropagateAnomalyTo kwargs = inl ex) <-> invalid_kwargs kwargs)
  /\ ((exists ex, new_PropagateAnomalyBy kwargs = inl ex)
      <-> invalid_kwargs kwargs)
  /\ (~ invalid_kwargs kwargs ->
      exists name key x,
        In (name, Some x) kwargs /\ key_of_name name = Some key
        /\ new_PropagateAnomalyTo kwargs = inr (PropagateAnomalyTo key x)
        /\ new_PropagateAnomalyBy kwargs = inr (PropagateAnomalyBy key x))
  /\ (forall x : R,
        new_PropagateAnomalyTo
          [("M", Some x); ("E", None); ("f", None)]%string
        = inr (PropagateAnomalyTo key_M x)
        /\ new_PropagateAnomalyTo
             [("M", None); ("E", Some x); ("f", None)]%string
           = inr (PropagateAnomalyTo key_E x)
        /\ new_PropagateAnomalyBy
             [("M", None); ("E", None); ("f", Some x)]%string
           = inr (PropagateAnomalyBy key_f x))
  /\ (forall class,
        (unknown_keyword kwargs ->
         make_time_operation class kwargs = inl TypeError_InvalidKwargs)
        /\ (~ unknown_keyword kwargs -> kwargs = [] ->
            make_time_operation class kwargs
            = inl TypeError_RequiredArgumentMissing)
        /\ (~ unknown_keyword kwargs -> (1 < count_not_None kwargs)%nat ->
            make_time_operation class kwargs = inl ValueError_OnlyOneAnomaly)
        /\ (~ unknown_keyword kwargs -> kwargs <> [] ->
            count_not_None kwargs = 0%nat ->
            make_time_operation class kwargs = inl KeyError_popitem)).
Proof.
  unfold new_PropagateAnomalyTo, new_PropagateAnomalyBy.
  split; [| split; [| split; [| split]]].
  - split.
    + intros [ex Hex].
      destruct (make_time_operation_cases PropagateAnomalyTo kwargs)
        as [[Hbad _] | [_ [name [key [x [Hr _]]]]]]; [assumption | congruence].
    + intros Hbad.
      destruct (make_time_operation_cases PropagateAnomalyTo kwargs)
        as [[_ Hex] | [Hok _]]; [assumption | contradiction].
  - split.
    + intros [ex Hex].
      destruct (make_time_operation_cases PropagateAnomalyBy kwargs)
        as [[Hbad _] | [_ [name [key [x [Hr _]]]]]]; [assumption | congruence].
    + intros Hbad.
      destruct (make_time_operation_cases PropagateAnomalyBy kwargs)
        as [[_ Hex] | [Hok _]]; [assumption | contradiction].
  - intros Hok. unfold make_time_operation.
    destruct (anomaly_kwargs_init_cases kwargs)
      as [[Hbad _] | [_ [name [x [-> [Hin [Hvalid _]]]]]]]; [contradiction |].
    destruct (valid_name_has_key name Hvalid) as [key Hkey].
    exists name, key, x. rewrite Hkey. auto.
  - intros x. repeat split.
  - intros class. unfold make_time_operation.
    destruct (anomaly_kwargs_init_exception kwargs) as [H1 [H2 [H3 H4]]].
    repeat split; intros.
    + now rewrite H1.
    + now rewrite H2.
    + now rewrite H3.
    + now rewrite H4.
Qed.

(** ** Running effects *)

Lemma bind_unit_ret (c : Eff unit) (w : World) :
  (c ;;; ret tt) w = c w.
Proof.
  unfold bind, ret. destruct (c w) as [[ex | []] w']; reflexivity.
Qed.

Lemma saved_state_restores {A : Type} (body : Eff A) (w : World) :
  orbit (snd (saved_state body w)) = orbit w.
Proof.
  unfold saved_state. destruct (body w) as [r w']. reflexivity.
Qed.

Lemma saved_state_result {A : Type} (body : Eff A) (w : World) :
  fst (saved_state body w) = fst (body w).
Proof.
  unfold saved_state. destruct (body w) as [r w']. reflexivity.
Qed.

(** Unfold the monad and split on the answer of [elements_for_apsides]. *)
Ltac run_eff :=
  unfold bind, get, call, ret, raise, set_a, set_e, set_M, set_t, set_arg_pe,
    set_f, set_v, assign, pericenter_radius, apocenter_radius; simpl;
  repeat match goal with
         | |- context [elements_for_apsides ?x ?y] =>
             destruct (elements_for_apsides x y) as [? | [? ?]]; simpl
         end.

Ltac unfold_ops :=
  unfold SetApocenterRadiusTo_apply, SetApocenterAltitudeTo_apply,
    ChangeApocenterBy_apply, SetPericenterRadiusTo_apply,
    SetPericenterAltitudeTo_apply, ChangePericenterBy_apply,
    Circularise_apply, SetPericenterHere_apply,
    SetApocenterRadiusTo_body, SetApocenterAltitudeTo_body,
    ChangeApocenterBy_body, SetPericenterRadiusTo_body,
    SetPericenterAltitudeTo_body, ChangePericenterBy_body,
    Circularise_body.

(** ** The two paths of an impulse operation *)

Lemma impulse_here_has_apply (op : Operation) :
  impulse_here op = true -> exists direct, get___apply__ op = Some direct.
Proof.
  destruct op; simpl; intros H; try discriminate; eauto.
Qed.

(** The block of [velocity_delta] and the direct rewrite ask
    [elements_for_apsides] the same question and write its answer to [a] and
    [e]: they end with the same elements and fail together. *)
Lemma body_and_direct_agree (op : Operation) (direct : Eff unit) (w : World) :
  impulse_here op = true ->
  get___apply__ op = Some direct ->
  elements (orbit (snd (velocity_delta_body op w)))
  = elements (orbit (snd (direct w)))
  /\ (forall ex, fst (velocity_delta_body op w) = inl ex
                 <-> fst (direct w) = inl ex).
Proof.
  intros Himp Hget.
  destruct op as [r | h | d | r | h | d | | | b | |]; simpl in Himp;
    try discriminate; simpl in Hget; injection Hget as <-; simpl;
    unfold_ops; try destruct b; run_eff;
    (split; [reflexivity | intros ex0; split; congruence]).
Qed.

(** The impulse path hands to the setter of [orbit.v] the old velocity plus
    the difference of two velocities sampled at the apside: that of the
    orbit with the elements the direct rewrite leaves, and that of the orbit
    as it is. *)
Lemma velocity_path_target (op : Operation) (direct : Eff unit) (w : World) :
  impulse_here op = true ->
  get___apply__ op = Some direct ->
  fst (direct w) = inr tt ->
  let at_apside := with_M (apside_anomaly op) (orbit w) in
  let rewritten := orbit (snd (direct w)) in
  let sampled := with_e (e rewritten) (with_a (a rewritten) at_apside) in
  apply_velocity_delta op w
  = (inr tt,
     mkWorld (set_velocity (vadd (v (orbit w)) (vsub (v sampled) (v at_apside)))
                (orbit w))
             (attr_v :: attr_e :: attr_a :: attr_M :: writes w)).
Proof.
  intros Himp Hget.
  destruct op as [r | h | d | r | h | d | | | b | |]; simpl in Himp;
    try discriminate; simpl in Hget; injection Hget as <-;
    unfold apply_velocity_delta; simpl velocity_delta;
    unfold SetApocenterRadiusTo_velocity_delta,
      SetApocenterAltitudeTo_velocity_delta, ChangeApocenterBy_velocity_delta,
      SetPericenterRadiusTo_velocity_delta,
      SetPericenterAltitudeTo_velocity_delta,
      ChangePericenterBy_velocity_delta, Circularise_velocity_delta,
      saved_state;
    unfold_ops; try destruct b; run_eff; intros Hok;
    solve [discriminate | reflexivity].
Qed.

(** C2.  For every orbit and each impulse operation of the module,
    [velocity_delta] called on its own returns with the orbit exactly as it
    found it: [a], [e], [M], [t] and [v] are unchanged, whether the block
    under [saved_state] ended normally or raised. *)
Theorem velocity_delta_leaves_orbit_unchanged (op : Operation) (w : World) :
  impulse_here op = true ->
  let w' := snd (velocity_delta op w) in
  orbit w' = orbit w
  /\ a (orbit w') = a (orbit w)
  /\ e (orbit w') = e (orbit w)
  /\ M (orbit w') = M (orbit w)
  /\ t (orbit w') = t (orbit w)
  /\ v (orbit w') = v (orbit w)
  /\ fst (velocity_delta op w) = fst (velocity_delta_body op w).
Proof.
  intros Himp w'.
  assert (Hsame : orbit w' = orbit w).
  { subst w'.
    destruct op; simpl in Himp; try discriminate; simpl;
      apply saved_state_restores. }
  rewrite Hsame. repeat split.
  destruct op; simpl in Himp; try discriminate; simpl;
    apply saved_state_result.
Qed.

(** Without the restore the orbit would leak: when [elements_for_apsides]
    raises, the block has already moved the anomaly to the apside. *)
Lemma body_alone_mutates (r : R) (w : World) (ex : exn) :
  elements_for_apsides r (pericenter_radius (orbit w)) = inl ex ->
  SetApocenterRadiusTo_body r w
  = (inl ex, mkWorld (with_M 0 (orbit w)) (attr_M :: writes w)).
Proof.
  intros Hfail. unfold SetApocenterRadiusTo_body.
  unfold bind, get, call, set_M, assign. simpl.
  unfold pericenter_radius in *. simpl. now rewrite Hfail.
Qed.

(** C8.  [Maneuver.bielliptic_transfer()] raises [NotImplementedError]; the
    orbit is as before and nothing was assigned. *)
Theorem bielliptic_transfer_not_implemented (w : World) :
  bielliptic_transfer w = (inl NotImplementedError, w)
  /\ orbit (snd (bielliptic_transfer w)) = orbit w
  /\ writes (snd (bielliptic_transfer w)) = writes w.
Proof. repeat split. Qed.

(** ** Dispatch in [Maneuver.__apply__] *)

Lemma apply_operation_by_branch (op : Operation) :
  apply_operation op =
  match branch_taken op with
  | DirectRewrite =>
      match get___apply__ op with Some direct => direct | None => ret tt end
  | VelocityDelta => apply_velocity_delta op
  | TimeDelta =>
      t0 <- get t ;; dt <- time_delta op ;; set_t (t0 + dt)
  | Skipped => ret tt
  end.
Proof.
  unfold apply_operation, branch_taken.
  destruct (get___apply__ op); [reflexivity |].
  destruct (isinstance_ImpulseOperation op); [reflexivity |].
  destruct (isinstance_TimeOperation op); reflexivity.
Qed.

Lemma never_assigns_v_bind {A B : Type} (c : Eff A) (k : A -> Eff B) :
  never_assigns_v c -> (forall x, never_assigns_v (k x)) ->
  never_assigns_v (bind c k).
Proof.
  intros Hc Hk w. unfold bind.
  destruct (Hc w) as [new1 [H1 Hno1]].
  destruct (c w) as [[ex | x] w1]; simpl in *.
  - exists new1. auto.
  - destruct (Hk x w1) as [new2 [H2 Hno2]].
    exists (new2 ++ new1). split.
    + rewrite H2, H1. apply app_assoc.
    + intros Hin. apply in_app_or in Hin. tauto.
Qed.

Ltac journal :=
  first [ exists (@nil Attr); split; [reflexivity | simpl; tauto]
        | eexists (cons _ nil); split;
          [reflexivity | simpl; intuition discriminate]
        | eexists (cons _ (cons _ nil)); split;
          [reflexivity | simpl; intuition discriminate]
        | eexists (cons _ (cons _ (cons _ nil))); split;
          [reflexivity | simpl; intuition discriminate] ].

Lemma defined_here_never_assigns_v (op : Operation) :
  defined_here op = true -> never_assigns_v (apply_operation op).
Proof.
  intros Hdef w.
  destruct op as [r | h | d | r | h | d | k x | k x | b | |];
    simpl in Hdef; try discriminate;
    unfold apply_operation; simpl; unfold_ops; try destruct b;
    run_eff; journal.
Qed.

Lemma module_operations_quiet (ops : list Operation) :
  forallb defined_here ops = true -> never_assigns_v (apply_operations ops).
Proof.
  induction ops as [| op rest IH]; simpl; intros Hall.
  - intros w. unfold ret. simpl. journal.
  - apply andb_true_iff in Hall as [Hop Hrest].
    apply never_assigns_v_bind.
    + now apply defined_here_never_assigns_v.
    + intros _. now apply IH.
Qed.

Lemma defined_here_branch (op : Operation) :
  defined_here op = true ->
  branch_taken op = DirectRewrite \/ branch_taken op = TimeDelta.
Proof.
  destruct op; simpl; intros H; try discriminate; auto.
Qed.

(** C9.  Each impulse operation of the module has a direct rewrite
    [__apply__], and [Maneuver.__apply__] looks for [__apply__] first: a
    maneuver made of the module's own operations never takes the
    velocity-delta branch and never assigns [orbit.v].  The branch that
    assigns [v] is taken only by an impulse operation without [__apply__]. *)
Theorem module_operations_never_take_velocity_branch
  (ops : list Operation) (w : World) :
  forallb defined_here ops = true ->
  (forall op, In op ops -> branch_taken op <> VelocityDelta)
  /\ (exists new,
        writes (snd (Maneuver_apply (mkManeuver ops) w)) = new ++ writes w
        /\ ~ In attr_v new)
  /\ (forall op, impulse_here op = true ->
                 get___apply__ op <> None /\ branch_taken op = DirectRewrite)
  /\ (forall op, branch_taken op = VelocityDelta ->
                 get___apply__ op = None
                 /\ isinstance_ImpulseOperation op = true).
Proof.
  intros Hall. repeat split.
  - intros op Hin Hbranch.
    assert (Hdef : defined_here op = true).
    { rewrite forallb_forall in Hall. now apply Hall. }
    destruct (defined_here_branch op Hdef) as [H | H]; congruence.
  - apply (module_operations_quiet ops Hall w).
  - destruct op; simpl in H; try discriminate; simpl; discriminate.
  - destruct op; simpl in H; try discriminate; reflexivity.
  - unfold branch_taken in H.
    destruct (get___apply__ op); [discriminate | reflexivity].
  - unfold branch_taken in H.
    destruct (get___apply__ op); [discriminate |].
    destruct (isinstance_ImpulseOperation op); [reflexivity |].
    destruct (isinstance_TimeOperation op); discriminate.
Qed.

(** ** Time operations *)

Lemma mean_motion_positive (o : Orbit) : 0 < T o -> 0 < n o.
Proof.
  intros HT. unfold n. apply Rdiv_lt_0_compat; [apply Rgt_2PI_0 | assumption].
Qed.

Lemma quotient_zero_iff (x d : R) : 0 < d -> (x / d = 0 <-> x = 0).
Proof.
  intros Hd. split; intros H.
  - replace x with (x / d * d) by (field; lra). rewrite H. ring.
  - subst x. unfold Rdiv. ring.
Qed.

Lemma quotient_nonnegative (x d : R) : 0 <= x -> 0 < d -> 0 <= x / d.
Proof.
  intros Hx Hd. unfold Rdiv. apply Rmult_le_pos; [assumption |].
  left. now apply Rinv_0_lt_compat.
Qed.

Lemma quotient_lt (x y d : R) : x < y -> 0 < d -> x / d < y / d.
Proof.
  intros Hxy Hd. unfold Rdiv. apply Rmult_lt_compat_r; [| assumption].
  now apply Rinv_0_lt_compat.
Qed.

Lemma time_delta_reads_only (op : Operation) (w : World) :
  defined_here op = true -> base_class op = class_TimeOperation ->
  snd (time_delta op w) = w.
Proof.
  destruct op; simpl; intros Hdef Hcls; try discriminate; reflexivity.
Qed.

(** C4.  Take an orbit of positive period whose mean anomaly and the target
    mean anomaly both lie in [0, 2π).  Then
    [PropagateAnomalyTo(M=target).time_delta(orbit)] is [(M1 - orbit.M) / n]
    where [M1] is the target, plus one revolution 2π exactly when the target
    is behind [orbit.M]; it is never negative, stays below one period, and
    is [0] exactly when the target equals [orbit.M].  The orbit is only
    read. *)
Theorem propagate_anomaly_to_mean_time_delta (target : R) (w : World) :
  let o := orbit w in
  let dt := PropagateAnomalyTo_time_delta key_M target o in
  0 < T o -> principal target -> principal (M o) ->
  new_PropagateAnomalyTo [("M"%string, Some target)]
  = inr (PropagateAnomalyTo key_M target)
  /\ time_delta (PropagateAnomalyTo key_M target) w = (inr dt, w)
  /\ 0 <= dt
  /\ (dt = 0 <-> target = M o)
  /\ (target < M o -> dt = (target + 2 * PI - M o) / n o)
  /\ (M o <= target -> dt = (target - M o) / n o)
  /\ dt < 2 * PI / n o.
Proof.
  intros o dt HT [Ht0 Ht1] [Hm0 Hm1].
  pose proof (mean_motion_positive o HT) as Hn.
  subst dt. unfold PropagateAnomalyTo_time_delta.
  repeat split; destruct (Rlt_dec target (M o)) as [Hlt | Hge];
    fold o; try lra.
  - apply quotient_nonnegative; lra.
  - apply quotient_nonnegative; lra.
  - intros H. apply quotient_zero_iff in H; lra.
  - intros H. apply quotient_zero_iff in H; lra.
  - intros H. apply quotient_zero_iff; lra.
  - apply quotient_lt; lra.
  - apply quotient_lt; lra.
Qed.

Lemma divmod_floor (x y : R) :
  0 < y ->
  x = fst (divmod x y) * y + snd (divmod x y)
  /\ 0 <= snd (divmod x y) < y
  /\ exists k : Z, fst (divmod x y) = IZR k.
Proof.
  intros Hy. unfold divmod. simpl.
  destruct (base_Int_part (x / y)) as [Hlo Hhi].
  set (q := IZR (Int_part (x / y))) in *.
  assert (Hx : x = x / y * y) by (field; lra).
  repeat split.
  - ring.
  - assert (q * y <= x / y * y) by (apply Rmult_le_compat_r; lra). lra.
  - assert ((x / y - q) * y < 1 * y) by (apply Rmult_lt_compat_r; lra). lra.
  - now exists (Int_part (x / y)).
Qed.

Lemma divmod_three_and_a_half :
  divmod (3 * (2 * PI) + 0.5) (2 * PI) = (3, 0.5).
Proof.
  pose proof PI2_1 as Hpi.
  assert (Hq : (3 * (2 * PI) + 0.5) / (2 * PI) = 3 + 0.5 / (2 * PI))
    by (field; lra).
  assert (Hfrac : 0 <= 0.5 / (2 * PI) < 1).
  { split.
    - apply quotient_nonnegative; lra.
    - apply Rmult_lt_reg_r with (2 * PI); [lra |].
      replace (0.5 / (2 * PI) * (2 * PI)) with 0.5 by (field; lra). lra. }
  assert (Hint : Int_part ((3 * (2 * PI) + 0.5) / (2 * PI)) = 3%Z).
  { symmetry. apply Int_part_spec. rewrite Hq. simpl. lra. }
  unfold divmod. rewrite Hint. f_equal. ring.
Qed.

(** C5.  For an orbit of period [T <> 0] and mean motion [n = 2π / T], and
    for each of the three keywords, [PropagateAnomalyBy.time_delta] returns
    what the decomposition of the specification returns: with
    [(whole_orbits, remainder)] the floor division of the amount by 2π
    (an integer and a remainder in [0, 2π)), the remainder converted to
    mean anomaly, the value [whole_orbits * T + M_remainder / n].  For
    [M = 3 * 2π + 0.5] that is [3 T + 0.5 / n]. *)
Theorem propagate_anomaly_by_time_delta_decomposes
  (key : AnomalyKey) (x : R) (w : World) :
  let o := orbit w in
  T o <> 0 ->
  time_delta (PropagateAnomalyBy key x) w
  = (inr (time_delta_by_spec key x o), w)
  /\ (x = fst (divmod x (2 * PI)) * (2 * PI) + snd (divmod x (2 * PI))
      /\ 0 <= snd (divmod x (2 * PI)) < 2 * PI
      /\ exists k : Z, fst (divmod x (2 * PI)) = IZR k)
  /\ divmod (3 * (2 * PI) + 0.5) (2 * PI) = (3, 0.5)
  /\ PropagateAnomalyBy_time_delta key_M (3 * (2 * PI) + 0.5) o
     = 3 * T o + 0.5 / n o.
Proof.
  intros o HT.
  pose proof PI_neq0 as Hpi.
  split; [| split; [| split]].
  - simpl. unfold get. fold o. f_equal. f_equal.
    unfold time_delta_by_spec, PropagateAnomalyBy_time_delta, divmod.
    destruct key; simpl; try reflexivity.
    unfold n. field. split; assumption.
  - apply divmod_floor. apply Rgt_2PI_0.
  - apply divmod_three_and_a_half.
  - simpl. unfold n. field. split; assumption.
Qed.

(** ** Circularise and the Hohmann transfer *)

Lemma bind_returns {A B : Type} (c : Eff A) (k : A -> Eff B)
  (w w1 : World) (x : A) :
  c w = (inr x, w1) -> bind c k w = k x w1.
Proof. intros H. unfold bind. now rewrite H. Qed.

Lemma circle_elements (a' e' r : R) :
  0 < r -> a' * (1 + e') = r -> a' * (1 - e') = r -> a' = r /\ e' = 0.
Proof.
  intros Hr Hap Hpe.
  assert (Ha : a' = r) by lra.
  split; [assumption |].
  assert (Hprod : a' * e' = 0) by lra.
  apply Rmult_integral in Hprod as [H | H]; [lra | assumption].
Qed.

Lemma run_SetApocenterRadiusTo (r a' e' : R) (w : World) :
  elements_for_apsides r (pericenter_radius (orbit w)) = inr (a', e') ->
  SetApocenterRadiusTo_apply r w
  = (inr tt, mkWorld (with_e e' (with_a a' (orbit w)))
                     (attr_e :: attr_a :: writes w)).
Proof.
  intros H. unfold SetApocenterRadiusTo_apply, bind, get, call.
  rewrite H. reflexivity.
Qed.

Lemma run_Circularise (b : bool) (a' e' : R) (w : World) :
  let radius := if b then apocenter_radius (orbit w)
                else pericenter_radius (orbit w) in
  elements_for_apsides radius radius = inr (a', e') ->
  Circularise_apply b w
  = (inr tt, mkWorld (with_e e' (with_a a' (orbit w)))
                     (attr_e :: attr_a :: writes w)).
Proof.
  intros radius H. unfold Circularise_apply, bind, get, call.
  destruct b; simpl; subst radius; rewrite H; reflexivity.
Qed.

(** C7.  On an elliptical orbit ([0 < a], [0 <= e < 1]), with
    [elements_for_apsides] converting apsides to elements, applying
    [Circularise(raise_pericenter=True)] leaves pericenter radius and
    apocenter radius equal to each other and to the apocenter radius the
    orbit had; with [raise_pericenter=False] they equal the pericenter
    radius it had.  The eccentricity is [0] afterwards. *)
Theorem circularise_sets_both_apsides (b : bool) (w : World) :
  let o := orbit w in
  let result := Maneuver_apply (new_Maneuver (inl (Circularise b))) w in
  converts_apsides -> 0 < a o -> 0 <= e o < 1 ->
  fst result = inr tt
  /\ pericenter_radius (orbit (snd result))
     = apocenter_radius (orbit (snd result))
  /\ apocenter_radius (orbit (snd result))
     = (if b then apocenter_radius o else pericenter_radius o)
  /\ e (orbit (snd result)) = 0.
Proof.
  intros o result Hefa Ha [He0 He1].
  set (radius := if b then apocenter_radius o else pericenter_radius o).
  assert (Hradius : 0 < radius).
  { subst radius. unfold apocenter_radius, pericenter_radius.
    destruct b; apply Rmult_lt_0_compat; lra. }
  destruct (Hefa radius radius Hradius (Rle_refl radius))
    as [a' [e' [Hcall [Hap Hpe]]]].
  destruct (circle_elements a' e' radius Hradius Hap Hpe) as [-> ->].
  assert (Hrun : result
                 = (inr tt, mkWorld (with_e 0 (with_a radius o))
                                    (attr_e :: attr_a :: writes w))).
  { subst result. unfold Maneuver_apply, new_Maneuver. simpl.
    rewrite bind_unit_ret. unfold apply_operation. simpl.
    now apply run_Circularise. }
  rewrite Hrun. simpl. unfold pericenter_radius, apocenter_radius. simpl.
  repeat split; ring.
Qed.

Lemma run_SetPericenterHere (w : World) :
  (forall ecc, mean_anomaly_from_true ecc 0 = 0) ->
  SetPericenterHere_apply w
  = (inr tt, mkWorld (with_M 0 (with_arg_pe (f (orbit w)) (orbit w)))
                     (attr_f :: attr_arg_pe :: writes w)).
Proof.
  intros Hzero. unfold SetPericenterHere_apply, bind, get, set_arg_pe, set_f,
    assign. simpl. now rewrite Hzero.
Qed.

Lemma half_period (o : Orbit) :
  0 < T o -> M o = 0 ->
  PropagateAnomalyTo_time_delta key_M PI o = T o / 2.
Proof.
  intros HT HM. unfold PropagateAnomalyTo_time_delta. rewrite HM.
  pose proof PI_RGT_0 as Hpi.
  destruct (Rlt_dec PI 0) as [Hneg | _]; [lra |].
  unfold n. field. split; lra.
Qed.

(** C6.  Let the orbit be circular of radius [r1] and the target circular of
    radius [r2 > r1].  [Maneuver.hohmann_transfer_to(target)] is the
    sequence [SetPericenterHere(), SetApocenterRadiusTo(r2),
    PropagateAnomalyTo(M=π), Circularise()], and applying it, in that
    order, succeeds and leaves the orbit with apocenter radius [r2] and
    eccentricity [0]; the epoch has advanced by half the period of the
    transfer ellipse, the orbit with apsides [r2] and [r1] that the first
    two operations leave. *)
Theorem hohmann_transfer_reaches_target
  (target : Orbit) (w : World) (r1 r2 : R) :
  let o := orbit w in
  converts_apsides ->
  (forall ecc, mean_anomaly_from_true ecc 0 = 0) ->
  (forall o', 0 < a o' -> 0 < body_mu o' -> 0 < T o') ->
  0 < body_mu o ->
  0 < r1 -> r1 < r2 ->
  a o = r1 -> e o = 0 -> a target = r2 -> e target = 0 ->
  exists m transfer w',
    hohmann_transfer_to target = inr m
    /\ operations m = [SetPericenterHere;
                       SetApocenterRadiusTo (apocenter_radius target);
                       PropagateAnomalyTo key_M PI;
                       Circularise true]
    /\ apocenter_radius target = r2
    /\ orbit (snd (apply_operations
                     [SetPericenterHere;
                      SetApocenterRadiusTo (apocenter_radius target)] w))
       = transfer
    /\ apocenter_radius transfer = r2
    /\ pericenter_radius transfer = r1
    /\ Maneuver_apply m w = (inr tt, w')
    /\ apocenter_radius (orbit w') = r2
    /\ e (orbit w') = 0
    /\ t (orbit w') = t o + T transfer / 2.
Proof.
  intros o Hefa Hzero Hperiod Hmu Hr1 Hr12 Ha He Hta Hte.
  assert (Htarget : apocenter_radius target = r2).
  { unfold apocenter_radius. rewrite Hta, Hte. ring. }
  (* first operation *)
  pose proof (run_SetPericenterHere w Hzero) as Hstep1.
  set (w1 := mkWorld (with_M 0 (with_arg_pe (f (orbit w)) (orbit w)))
                     (attr_f :: attr_arg_pe :: writes w)) in *.
  assert (Hrp1 : pericenter_radius (orbit w1) = r1).
  { unfold pericenter_radius. simpl. fold o. rewrite Ha, He. ring. }
  (* first burn *)
  destruct (Hefa r2 r1 Hr1 (Rlt_le _ _ Hr12)) as [a1 [e1 [Hcall1 [Hap1 Hpe1]]]].
  assert (Hstep2 : SetApocenterRadiusTo_apply (apocenter_radius target) w1
                   = (inr tt, mkWorld (with_e e1 (with_a a1 (orbit w1)))
                                      (attr_e :: attr_a :: writes w1))).
  { apply run_SetApocenterRadiusTo. now rewrite Htarget, Hrp1. }
  set (w2 := mkWorld (with_e e1 (with_a a1 (orbit w1)))
                     (attr_e :: attr_a :: writes w1)) in *.
  assert (Ha1 : 0 < a1) by lra.
  assert (HT2 : 0 < T (orbit w2)).
  { apply Hperiod; simpl; [assumption | exact Hmu]. }
  (* coasting to the apocenter *)
  assert (Hdt : PropagateAnomalyTo_time_delta key_M PI (orbit w2)
                = T (orbit w2) / 2).
  { apply half_period; [assumption | reflexivity]. }
  set (w3 := mkWorld (with_t (t (orbit w2) + T (orbit w2) / 2) (orbit w2))
                     (attr_t :: writes w2)).
  assert (Hstep3 : apply_operation (PropagateAnomalyTo key_M PI) w2
                   = (inr tt, w3)).
  { subst w3. rewrite <- Hdt. reflexivity. }
  (* second burn *)
  assert (Hra3 : apocenter_radius (orbit w3) = r2).
  { unfold apocenter_radius. simpl. exact Hap1. }
  assert (Hr2 : 0 < r2) by lra.
  destruct (Hefa r2 r2 Hr2 (Rle_refl r2)) as [a2 [e2 [Hcall2 [Hap2 Hpe2]]]].
  destruct (circle_elements a2 e2 r2 Hr2 Hap2 Hpe2) as [-> ->].
  assert (Hstep4 : Circularise_apply true w3
                   = (inr tt, mkWorld (with_e 0 (with_a r2 (orbit w3)))
                                      (attr_e :: attr_a :: writes w3))).
  { apply run_Circularise. now rewrite Hra3. }
  exists (mkManeuver [SetPericenterHere;
                      SetApocenterRadiusTo (apocenter_radius target);
                      PropagateAnomalyTo key_M PI;
                      Circularise true]),
         (orbit w2),
         (mkWorld (with_e 0 (with_a r2 (orbit w3)))
                  (attr_e :: attr_a :: writes w3)).
  repeat split.
  - assumption.
  - simpl. rewrite (bind_returns _ _ w w1 tt Hstep1).
    rewrite (bind_returns _ _ w1 w2 tt Hstep2). reflexivity.
  - unfold apocenter_radius. simpl. exact Hap1.
  - unfold pericenter_radius. simpl. exact Hpe1.
  - unfold Maneuver_apply. simpl.
    rewrite (bind_returns _ _ w w1 tt Hstep1).
    rewrite (bind_returns _ _ w1 w2 tt Hstep2).
    rewrite (bind_returns _ _ w2 w3 tt Hstep3).
    rewrite (bind_returns _ _ _ _ tt Hstep4). reflexivity.
  - unfold apocenter_radius. simpl. ring.
Qed.

End Properties.

(** ** The two-body instance meets the assumptions *)

Lemma kepler_converts_apsides : @converts_apsides kepler.
Proof.
  intros ra rp Hrp Hle. simpl. unfold kepler_elements_for_apsides.
  exists ((ra + rp) / 2), ((ra - rp) / (ra + rp)).
  repeat split; field; lra.
Qed.

Lemma kepler_mean_from_true_0 (ecc : R) : kepler_mean_from_true ecc 0 = 0.
Proof.
  unfold kepler_mean_from_true, kepler_mean_from_eccentric.
  replace (0 / 2) with 0 by field.
  rewrite tan_0, Rmult_0_r, atan_0, Rmult_0_r, sin_0. ring.
Qed.

Lemma kepler_T_positive (o : Orbit) :
  0 < a o -> 0 < body_mu o -> 0 < kepler_T o.
Proof.
  intros Ha Hmu. unfold kepler_T.
  apply Rmult_lt_0_compat; [apply Rgt_2PI_0 |].
  apply sqrt_lt_R0. apply Rdiv_lt_0_compat; [| assumption].
  repeat apply Rmult_lt_0_compat; assumption.
Qed.

Lemma ellipse_3_1_period : 0 < kepler_T ellipse_3_1.
Proof. apply kepler_T_positive; simpl; lra. Qed.

(** ** Instances of the theorems *)

Lemma velocity_delta_leaves_orbit_unchanged_witness :
  impulse_here (K := kepler) (Circularise true) = true
  /\ orbit (snd (velocity_delta (K := kepler) (Circularise true)
                   (mkWorld ellipse_3_1 [])))
     = ellipse_3_1.
Proof.
  split; [reflexivity |].
  apply (@velocity_delta_leaves_orbit_unchanged kepler (Circularise true)
           (mkWorld ellipse_3_1 []) eq_refl).
Defined.

Lemma module_operations_never_take_velocity_branch_witness :
  forallb (defined_here (K := kepler))
    [SetPericenterHere; SetApocenterRadiusTo 2; PropagateAnomalyTo key_M PI;
     Circularise true] = true
  /\ branch_taken (K := kepler) (SetApocenterRadiusTo 2) <> VelocityDelta.
Proof.
  split; [reflexivity |].
  apply (@module_operations_never_take_velocity_branch kepler
           [SetPericenterHere; SetApocenterRadiusTo 2;
            PropagateAnomalyTo key_M PI; Circularise true]
           (mkWorld unit_circle []) eq_refl).
  simpl. tauto.
Defined.

Lemma propagate_anomaly_to_mean_time_delta_witness :
  0 < T (Collaborators := kepler) ellipse_3_1
  /\ principal 1 /\ principal (M ellipse_3_1)
  /\ 0 <= PropagateAnomalyTo_time_delta (K := kepler) key_M 1 ellipse_3_1.
Proof.
  pose proof PI2_1 as Hpi.
  assert (H1 : principal 1) by (unfold principal; lra).
  assert (H0 : principal (M ellipse_3_1)) by (unfold principal; simpl; lra).
  repeat split; try apply ellipse_3_1_period; try apply H1; try apply H0.
  apply (@propagate_anomaly_to_mean_time_delta kepler 1
           (mkWorld ellipse_3_1 []) ellipse_3_1_period H1 H0).
Defined.

Lemma propagate_anomaly_by_time_delta_decomposes_witness :
  T (Collaborators := kepler) ellipse_3_1 <> 0
  /\ PropagateAnomalyBy_time_delta (K := kepler) key_M (3 * (2 * PI) + 0.5)
       ellipse_3_1
     = 3 * T ellipse_3_1 + 0.5 / n ellipse_3_1.
Proof.
  assert (HT : T (Collaborators := kepler) ellipse_3_1 <> 0).
  { pose proof ellipse_3_1_period as H. simpl. lra. }
  split; [exact HT |].
  apply (@propagate_anomaly_by_time_delta_decomposes kepler key_M
           (3 * (2 * PI) + 0.5)
           (mkWorld ellipse_3_1 []) HT).
Defined.

Lemma circularise_sets_both_apsides_witness :
  @converts_apsides kepler
  /\ 0 < a ellipse_3_1 /\ 0 <= e ellipse_3_1 < 1
  /\ apocenter_radius
       (orbit (snd (Maneuver_apply (K := kepler)
                      (new_Maneuver (inl (Circularise true)))
                      (mkWorld ellipse_3_1 []))))
     = apocenter_radius ellipse_3_1.
Proof.
  assert (Ha : 0 < a ellipse_3_1) by (simpl; lra).
  assert (He : 0 <= e ellipse_3_1 < 1) by (simpl; lra).
  repeat split; try apply kepler_converts_apsides; try apply Ha; try apply He.
  apply (@circularise_sets_both_apsides kepler true (mkWorld ellipse_3_1 [])
           kepler_converts_apsides Ha He).
Defined.

Lemma hohmann_transfer_reaches_target_witness :
  @converts_apsides kepler
  /\ (forall ecc, kepler_mean_from_true ecc 0 = 0)
  /\ (forall o', 0 < a o' -> 0 < body_mu o' -> 0 < kepler_T o')
  /\ exists m transfer w',
       hohmann_transfer_to (K := kepler) (mkOrbit 2 0 0 0 0 0 1) = inr m
       /\ Maneuver_apply m (mkWorld unit_circle []) = (inr tt, w')
       /\ apocenter_radius (orbit w') = 2
       /\ e (orbit w') = 0
       /\ t (orbit w') = t unit_circle + kepler_T transfer / 2.
Proof.
  split; [exact kepler_converts_apsides |].
  split; [exact kepler_mean_from_true_0 |].
  split; [exact kepler_T_positive |].
  destruct (@hohmann_transfer_reaches_target kepler
              (mkOrbit 2 0 0 0 0 0 1) (mkWorld unit_circle []) 1 2
              kepler_converts_apsides kepler_mean_from_true_0
              kepler_T_positive Rlt_0_1 Rlt_0_1 ltac:(lra)
              eq_refl eq_refl eq_refl eq_refl)
    as [m [transfer [w' [Hm [_ [_ [_ [_ [_ [Hrun [Hra [He Ht]]]]]]]]]]]].
  exists m, transfer, w'. repeat split; assumption.
Defined.

Lemma time_operation_construction_raises_iff_invalid_witness :
  invalid_kwargs [("M", Some 0.1); ("f", Some 0.2)]%string
  /\ exists ex,
       new_PropagateAnomalyTo (K := kepler)
         [("M", Some 0.1); ("f", Some 0.2)]%string = inl ex.
Proof.
  assert (Hbad : invalid_kwargs [("M", Some 0.1); ("f", Some 0.2)]%string).
  { right. right. unfold count_not_None. simpl. lia. }
  split; [exact Hbad |].
  destruct (@time_operation_construction_raises_iff_invalid kepler
              [("M", Some 0.1); ("f", Some 0.2)]%string) as [[_ Hraise] _].
  exact (Hraise Hbad).
Defined.

(** * Further properties of the operations *)

Section Further.

Context {K : Collaborators}.

(** Unfolding the methods and running the monad, as before. *)
Ltac unfold_methods :=
  unfold SetApocenterRadiusTo_apply, SetApocenterAltitudeTo_apply,
    ChangeApocenterBy_apply, SetPericenterRadiusTo_apply,
    SetPericenterAltitudeTo_apply, ChangePericenterBy_apply,
    Circularise_apply, SetPericenterHere_apply,
    SetApocenterRadiusTo_velocity_delta, SetApocenterAltitudeTo_velocity_delta,
    ChangeApocenterBy_velocity_delta, SetPericenterRadiusTo_velocity_delta,
    SetPericenterAltitudeTo_velocity_delta, ChangePericenterBy_velocity_delta,
    Circularise_velocity_delta, saved_state,
    SetApocenterRadiusTo_body, SetApocenterAltitudeTo_body,
    ChangeApocenterBy_body, SetPericenterRadiusTo_body,
    SetPericenterAltitudeTo_body, ChangePericenterBy_body,
    Circularise_body.

Ltac step_eff :=
  unfold bind, get, call, ret, raise, set_a, set_e, set_M, set_t, set_arg_pe,
    set_f, set_v, assign, pericenter_radius, apocenter_radius; simpl;
  repeat match goal with
         | |- context [elements_for_apsides ?x ?y] =>
             destruct (elements_for_apsides x y) as [? | [? ?]]; simpl
         end.

(** One turn of the maneuver loop on an impulse operation of the module: a
    single question to [elements_for_apsides], then the two assignments. *)
Lemma apply_operation_impulse (op : Operation) (w : World) :
  impulse_here op = true ->
  apply_operation op w =
  match elements_for_apsides (fst (requested_apsides op (orbit w)))
                             (snd (requested_apsides op (orbit w))) with
  | inl ex => (inl ex, w)
  | inr (a', e') =>
      (inr tt, mkWorld (with_e e' (with_a a' (orbit w)))
                       (attr_e :: attr_a :: writes w))
  end.
Proof.
  intros Himp.
  destruct op as [r | h | d | r | h | d | | | b | |]; simpl in Himp;
    try discriminate; unfold apply_operation, requested_apsides; simpl;
    unfold_methods; try destruct b; step_eff; reflexivity.
Qed.

(** X1.  The direct rewrite either fails with the exception of
    [elements_for_apsides] and leaves the orbit untouched, or assigns [a]
    and [e] and nothing else. *)
Theorem impulse_rewrite_all_or_nothing (op : Operation) (w : World) :
  impulse_here op = true ->
  let result := apply_operation op w in
  let ra := fst (requested_apsides op (orbit w)) in
  let rp := snd (requested_apsides op (orbit w)) in
  (forall ex, fst result = inl ex <-> elements_for_apsides ra rp = inl ex)
  /\ (forall ex, fst result = inl ex -> snd result = w)
  /\ (fst result = inr tt ->
      elements_for_apsides ra rp = inr (elements (orbit (snd result)))
      /\ M (orbit (snd result)) = M (orbit w)
      /\ t (orbit (snd result)) = t (orbit w)
      /\ arg_pe (orbit (snd result)) = arg_pe (orbit w)
      /\ body_mean_radius (orbit (snd result)) = body_mean_radius (orbit w)
      /\ body_mu (orbit (snd result)) = body_mu (orbit w)
      /\ writes (snd result) = attr_e :: attr_a :: writes w).
Proof.
  intros Himp result ra rp. subst result.
  rewrite (apply_operation_impulse op w Himp). fold ra rp.
  destruct (elements_for_apsides ra rp) as [ex0 | [a' e']]; simpl.
  - repeat split; intros; congruence.
  - repeat split; intros; congruence.
Qed.

(** X2.  With [elements_for_apsides] converting apsides to elements, the direct
    rewrite succeeds on radii that are apsides of an ellipse and leaves the
    orbit with exactly the two radii it asked for: the new apsis, and the
    other apsis as it was. *)
Theorem impulse_rewrite_reaches_requested_apsides
  (op : Operation) (w : World) :
  impulse_here op = true ->
  converts_apsides ->
  let result := apply_operation op w in
  let ra := fst (requested_apsides op (orbit w)) in
  let rp := snd (requested_apsides op (orbit w)) in
  0 < rp -> rp <= ra ->
  fst result = inr tt
  /\ apocenter_radius (orbit (snd result)) = ra
  /\ pericenter_radius (orbit (snd result)) = rp.
Proof.
  intros Himp Hefa result ra rp Hrp Hle. subst result.
  rewrite (apply_operation_impulse op w Himp). fold ra rp.
  destruct (Hefa ra rp Hrp Hle) as [a' [e' [-> [Hap Hpe]]]].
  simpl. unfold apocenter_radius, pericenter_radius. simpl. auto.
Qed.

Lemma sets_apsis_is_impulse (op : Operation) :
  sets_apsis op = true -> impulse_here op = true.
Proof. destruct op; simpl; intros H; try discriminate; reflexivity. Qed.

(** Once a setter has run, it asks for the same two radii again. *)
Lemma setter_requests_again (op : Operation) (o : Orbit) (a' e' : R) :
  sets_apsis op = true ->
  a' * (1 + e') = fst (requested_apsides op o) ->
  a' * (1 - e') = snd (requested_apsides op o) ->
  requested_apsides op (with_e e' (with_a a' o)) = requested_apsides op o.
Proof.
  intros Hset Hap Hpe.
  destruct op as [r | h | d | r | h | d | | | b | |]; simpl in Hset;
    try discriminate; try destruct b;
    unfold requested_apsides, apocenter_radius, pericenter_radius in *;
    simpl in *; f_equal; assumption.
Qed.

(** X3.  The four setters and [Circularise] are idempotent: on radii that are
    apsides of an ellipse, applying the operation a second time succeeds
    and leaves the orbit as the first application left it. *)
Theorem setter_applied_twice (op : Operation) (w : World) :
  sets_apsis op = true ->
  converts_apsides ->
  0 < snd (requested_apsides op (orbit w)) ->
  snd (requested_apsides op (orbit w))
  <= fst (requested_apsides op (orbit w)) ->
  exists w1 w2,
    apply_operation op w = (inr tt, w1)
    /\ apply_operation op w1 = (inr tt, w2)
    /\ orbit w2 = orbit w1
    /\ apply_operations [op; op] w = (inr tt, w2).
Proof.
  intros Hset Hefa Hrp Hle.
  pose proof (sets_apsis_is_impulse op Hset) as Himp.
  destruct (Hefa _ _ Hrp Hle) as [a' [e' [Hcall [Hap Hpe]]]].
  set (w1 := mkWorld (with_e e' (with_a a' (orbit w)))
                     (attr_e :: attr_a :: writes w)).
  set (w2 := mkWorld (with_e e' (with_a a' (orbit w1)))
                     (attr_e :: attr_a :: writes w1)).
  assert (H1 : apply_operation op w = (inr tt, w1)).
  { rewrite (apply_operation_impulse op w Himp), Hcall. reflexivity. }
  assert (H2 : apply_operation op w1 = (inr tt, w2)).
  { rewrite (apply_operation_impulse op w1 Himp). simpl orbit.
    rewrite (setter_requests_again op (orbit w) a' e' Hset Hap Hpe), Hcall.
    reflexivity. }
  exists w1, w2. repeat split; try assumption.
  simpl. rewrite (bind_returns _ _ w w1 tt H1).
  rewrite (bind_returns _ _ w1 w2 tt H2). reflexivity.
Qed.

Lemma elements_from_apsides (a1 e1 a2 e2 : R) :
  0 < a1 ->
  a2 * (1 + e2) = a1 * (1 + e1) -> a2 * (1 - e2) = a1 * (1 - e1) ->
  a2 = a1 /\ e2 = e1.
Proof.
  intros Ha Hap Hpe.
  assert (Heq : a2 = a1) by lra. subst a2.
  split; [reflexivity |].
  assert (Hprod : a1 * (e2 - e1) = 0) by lra.
  apply Rmult_integral in Hprod as [H | H]; lra.
Qed.

Lemma with_own_elements (o : Orbit) (a' e' : R) :
  with_e (e o) (with_a (a o) (with_e e' (with_a a' o))) = o.
Proof. destruct o. reflexivity. Qed.

(** X4.  [ChangeApocenterBy(d)] followed by [ChangeApocenterBy(-d)] brings an
    elliptical orbit back to the elements it had, as long as the raised or
    lowered apocenter stays above the pericenter; likewise for
    [ChangePericenterBy] as long as the moved pericenter stays positive and
    below the apocenter. *)
Theorem change_by_then_back (d : R) (w : World) :
  converts_apsides ->
  0 < a (orbit w) -> 0 <= e (orbit w) < 1 ->
  (pericenter_radius (orbit w) <= apocenter_radius (orbit w) + d ->
   exists w',
     apply_operations [ChangeApocenterBy d; ChangeApocenterBy (- d)] w
     = (inr tt, w')
     /\ orbit w' = orbit w)
  /\ (0 < pericenter_radius (orbit w) + d <= apocenter_radius (orbit w) ->
      exists w',
        apply_operations [ChangePericenterBy d; ChangePericenterBy (- d)] w
        = (inr tt, w')
        /\ orbit w' = orbit w).
Proof.
  intros Hefa Ha [He0 He1].
  set (o := orbit w) in *.
  assert (Hrp : 0 < pericenter_radius o).
  { unfold pericenter_radius. apply Rmult_lt_0_compat; lra. }
  assert (Hle : pericenter_radius o <= apocenter_radius o).
  { unfold pericenter_radius, apocenter_radius. nra. }
  destruct (Hefa _ _ Hrp Hle) as [a2 [e2 [Hback [Hap2 Hpe2]]]].
  destruct (elements_from_apsides (a o) (e o) a2 e2 Ha Hap2 Hpe2)
    as [-> ->].
  split.
  - intros Hup.
    destruct (Hefa _ _ Hrp Hup) as [a1 [e1 [Hcall [Hap1 Hpe1]]]].
    set (w1 := mkWorld (with_e e1 (with_a a1 o))
                       (attr_e :: attr_a :: writes w)).
    assert (H1 : apply_operation (ChangeApocenterBy d) w = (inr tt, w1)).
    { rewrite apply_operation_impulse by reflexivity.
      simpl. fold o. rewrite Hcall. reflexivity. }
    assert (Hreq : requested_apsides (ChangeApocenterBy (- d)) (orbit w1)
                   = (apocenter_radius o, pericenter_radius o)).
    { unfold requested_apsides. simpl. f_equal.
      - unfold apocenter_radius at 1. simpl. lra.
      - unfold pericenter_radius at 1. simpl. lra. }
    exists (mkWorld (with_e (e o) (with_a (a o) (orbit w1)))
                    (attr_e :: attr_a :: writes w1)).
    split.
    + simpl apply_operations. rewrite (bind_returns _ _ w w1 tt H1).
      rewrite bind_unit_ret.
      rewrite apply_operation_impulse by reflexivity.
      rewrite Hreq. simpl fst. simpl snd. rewrite Hback. reflexivity.
    + simpl. apply with_own_elements.
  - intros [Hpos Hdown].
    destruct (Hefa _ _ Hpos Hdown) as [a1 [e1 [Hcall [Hap1 Hpe1]]]].
    set (w1 := mkWorld (with_e e1 (with_a a1 o))
                       (attr_e :: attr_a :: writes w)).
    assert (H1 : apply_operation (ChangePericenterBy d) w = (inr tt, w1)).
    { rewrite apply_operation_impulse by reflexivity.
      simpl. fold o. rewrite Hcall. reflexivity. }
    assert (Hreq : requested_apsides (ChangePericenterBy (- d)) (orbit w1)
                   = (apocenter_radius o, pericenter_radius o)).
    { unfold requested_apsides. simpl. f_equal.
      - unfold apocenter_radius at 1. simpl. lra.
      - unfold pericenter_radius at 1. simpl. lra. }
    exists (mkWorld (with_e (e o) (with_a (a o) (orbit w1)))
                    (attr_e :: attr_a :: writes w1)).
    split.
    + simpl apply_operations. rewrite (bind_returns _ _ w w1 tt H1).
      rewrite bind_unit_ret.
      rewrite apply_operation_impulse by reflexivity.
      rewrite Hreq. simpl fst. simpl snd. rewrite Hback. reflexivity.
    + simpl. apply with_own_elements.
Qed.

(** ** Sequences of operations *)

(** X5.  The operations of two maneuvers in a row: the second list runs on the
    orbit the first one leaves.  When an operation raises, the loop ends
    there: the operations after it do not run, and what the operations
    before it assigned stays assigned. *)
Theorem operations_in_sequence (ops1 ops2 : list Operation) (w : World) :
  apply_operations (ops1 ++ ops2) w =
  match apply_operations ops1 w with
  | (inl ex, w') => (inl ex, w')
  | (inr _, w') => apply_operations ops2 w'
  end.
Proof.
  revert w. induction ops1 as [| op rest IH]; intros w; simpl.
  - reflexivity.
  - unfold bind.
    destruct (apply_operation op w) as [[ex | []] w1]; [reflexivity |].
    apply IH.
Qed.

(** ** More on the time operations *)

Lemma quotient_negative_iff (x d : R) : 0 < d -> (x / d < 0 <-> x < 0).
Proof.
  intros Hd. split; intros H.
  - destruct (Rlt_le_dec x 0) as [Hneg | Hpos]; [assumption |].
    pose proof (quotient_nonnegative x d Hpos Hd). lra.
  - pose proof (quotient_lt x 0 d H Hd) as Hlt.
    unfold Rdiv in Hlt at 2. rewrite Rmult_0_l in Hlt. exact Hlt.
Qed.

Lemma quotient_le_iff (x y d : R) : 0 < d -> (x / d <= y / d <-> x <= y).
Proof.
  intros Hd. split; intros H.
  - destruct (Rle_lt_dec x y) as [Hle | Hgt]; [assumption |].
    pose proof (quotient_lt y x d Hgt Hd). lra.
  - destruct H as [Hlt | ->]; [| apply Rle_refl].
    left. now apply quotient_lt.
Qed.

Lemma PropagateAnomalyTo_time_delta_unfold
  (key : AnomalyKey) (x : R) (o : Orbit) :
  PropagateAnomalyTo_time_delta key x o
  = ((if Rlt_dec (to_mean_anomaly key (e o) x) (M o)
      then to_mean_anomaly key (e o) x + 2 * PI
      else to_mean_anomaly key (e o) x) - M o) / n o.
Proof. destruct key; reflexivity. Qed.

(** X7.  [PropagateAnomalyTo] adds one revolution to a target behind the orbit
    and never more, and takes nothing off a target ahead of it.  So, for a
    positive period and whichever anomaly was given, the time delta is
    negative exactly when the target's mean anomaly is more than one
    revolution behind [orbit.M], and reaches a full period exactly when it
    is a revolution or more ahead. *)
Theorem propagate_to_wraps_at_most_once
  (key : AnomalyKey) (x : R) (o : Orbit) :
  let target := to_mean_anomaly key (e o) x in
  let dt := PropagateAnomalyTo_time_delta key x o in
  0 < T o ->
  (M o <= target -> dt = (target - M o) / n o)
  /\ (target < M o -> dt = (target + 2 * PI - M o) / n o)
  /\ (dt < 0 <-> target < M o - 2 * PI)
  /\ (2 * PI / n o <= dt <-> M o + 2 * PI <= target).
Proof.
  intros target dt HT.
  pose proof (mean_motion_positive o HT) as Hn.
  pose proof Rgt_2PI_0 as Hpi.
  subst dt. rewrite PropagateAnomalyTo_time_delta_unfold. fold target.
  destruct (Rlt_dec target (M o)) as [Hlt | Hge].
  - repeat split; try lra.
    + intros H. apply quotient_negative_iff in H; lra.
    + intros H. apply quotient_negative_iff; lra.
    + intros H. apply quotient_le_iff in H; lra.
  - repeat split; try lra.
    + intros H. apply quotient_negative_iff in H; lra.
    + intros H. apply quotient_le_iff in H; lra.
    + intros H. apply quotient_le_iff; lra.
Qed.

Lemma divmod_shift (x y : R) (k : Z) :
  0 < y ->
  divmod (x + IZR k * y) y
  = (fst (divmod x y) + IZR k, snd (divmod x y)).
Proof.
  intros Hy. unfold divmod. simpl.
  assert (Hq : (x + IZR k * y) / y = x / y + IZR k) by (field; lra).
  assert (Hint : Int_part ((x + IZR k * y) / y)
                 = (Int_part (x / y) + k)%Z).
  { symmetry. apply Int_part_spec. rewrite Hq, plus_IZR.
    destruct (base_Int_part (x / y)) as [Hlo Hhi]. lra. }
  rewrite Hint, plus_IZR. f_equal. ring.
Qed.

Lemma divmod_zero (y : R) : 0 < y -> divmod 0 y = (0, 0).
Proof.
  intros Hy. unfold divmod.
  assert (Hint : Int_part (0 / y) = 0%Z).
  { symmetry. apply Int_part_spec. unfold Rdiv. rewrite Rmult_0_l.
    simpl. lra. }
  rewrite Hint. f_equal. ring.
Qed.

(** X8.  [PropagateAnomalyBy] counts whole revolutions as whole periods, for each
    of the three anomalies and in both directions: [k] more revolutions in
    the amount are [k] more periods in the time delta ([k] any integer,
    period not zero).  When anomaly [0] converts to mean anomaly [0],
    propagating by [k] revolutions takes [k] periods. *)
Theorem propagate_by_whole_revolutions
  (key : AnomalyKey) (x : R) (k : Z) (o : Orbit) :
  T o <> 0 ->
  PropagateAnomalyBy_time_delta key (x + IZR k * (2 * PI)) o
  = PropagateAnomalyBy_time_delta key x o + IZR k * T o
  /\ (to_mean_anomaly key (e o) 0 = 0 ->
      PropagateAnomalyBy_time_delta key (IZR k * (2 * PI)) o = IZR k * T o).
Proof.
  intros HT.
  pose proof Rgt_2PI_0 as Hpi. pose proof PI_neq0 as Hpi0.
  assert (Hshift :
    PropagateAnomalyBy_time_delta key (x + IZR k * (2 * PI)) o
    = PropagateAnomalyBy_time_delta key x o + IZR k * T o
    /\ PropagateAnomalyBy_time_delta key (0 + IZR k * (2 * PI)) o
       = PropagateAnomalyBy_time_delta key 0 o + IZR k * T o).
  { destruct key; unfold PropagateAnomalyBy_time_delta.
    - split; unfold n; field; split; assumption.
    - rewrite !divmod_shift by assumption.
      destruct (divmod x (2 * PI)) as [q r].
      destruct (divmod 0 (2 * PI)) as [q0 r0]. simpl. split; ring.
    - rewrite !divmod_shift by assumption.
      destruct (divmod x (2 * PI)) as [q r].
      destruct (divmod 0 (2 * PI)) as [q0 r0]. simpl. split; ring. }
  destruct Hshift as [Hx H0]. split; [exact Hx |].
  intros Hzero. rewrite Rplus_0_l in H0. rewrite H0.
  assert (Hnone : PropagateAnomalyBy_time_delta key 0 o = 0).
  { destruct key; unfold PropagateAnomalyBy_time_delta;
      try rewrite (divmod_zero (2 * PI) Hpi); simpl in Hzero |- *;
      try rewrite Hzero; unfold Rdiv; ring. }
  rewrite Hnone. ring.
Qed.

(** ** More on [velocity_delta] *)

(** [velocity_delta], run: the anomaly goes to the apside, one question to
    [elements_for_apsides], the elements are assigned, and the snapshot is
    put back. *)
Lemma velocity_delta_run (op : Operation) (w : World) :
  impulse_here op = true ->
  velocity_delta op w =
  let at_apside := with_M (apside_anomaly op) (orbit w) in
  match elements_for_apsides (fst (requested_apsides op (orbit w)))
                             (snd (requested_apsides op (orbit w))) with
  | inl ex => (inl ex, mkWorld (orbit w) (attr_M :: writes w))
  | inr (a', e') =>
      (inr (vsub (v (with_e e' (with_a a' at_apside))) (v at_apside)),
       mkWorld (orbit w) (attr_e :: attr_a :: attr_M :: writes w))
  end.
Proof.
  intros Himp.
  destruct op as [r | h | d | r | h | d | | | b | |]; simpl in Himp;
    try discriminate; unfold requested_apsides; simpl;
    unfold_methods; try destruct b; step_eff; reflexivity.
Qed.

Lemma requested_apsides_ignore_anomaly (op : Operation) (o : Orbit) (x : R) :
  requested_apsides op (with_M x o) = requested_apsides op o.
Proof. destruct op as [| | | | | | | | [|] | |]; reflexivity. Qed.

Lemma requested_apsides_ignore_epoch (op : Operation) (o : Orbit) (x : R) :
  requested_apsides op (with_t x o) = requested_apsides op o.
Proof. destruct op as [| | | | | | | | [|] | |]; reflexivity. Qed.

(** X9.  What [velocity_delta] returns: it raises exactly when the direct rewrite
    raises, with the same exception; otherwise the result is the velocity,
    at the apside, of the orbit that the direct rewrite produces, minus the
    velocity of the present orbit at the apside. *)
Theorem velocity_delta_value (op : Operation) (w : World) :
  impulse_here op = true ->
  (forall ex, fst (velocity_delta op w) = inl ex
              <-> fst (apply_operation op w) = inl ex)
  /\ (forall w1, apply_operation op w = (inr tt, w1) ->
        fst (velocity_delta op w)
        = inr (vsub (v (with_M (apside_anomaly op) (orbit w1)))
                    (v (with_M (apside_anomaly op) (orbit w))))).
Proof.
  intros Himp.
  rewrite (velocity_delta_run op w Himp),
    (apply_operation_impulse op w Himp).
  destruct (elements_for_apsides _ _) as [ex0 | [a' e']]; simpl.
  - split.
    + intros ex. split; intros H; injection H as <-; reflexivity.
    + intros w1 H. discriminate H.
  - split.
    + intros ex. split; intros H; discriminate H.
    + intros w1 H. injection H as <-. reflexivity.
Qed.

(** X10.  [velocity_delta] first moves the anomaly to the apside, so its result
    does not depend on the anomaly the orbit has when it is called. *)
Theorem velocity_delta_ignores_current_anomaly
  (op : Operation) (w : World) (x : R) :
  impulse_here op = true ->
  fst (velocity_delta op (mkWorld (with_M x (orbit w)) (writes w)))
  = fst (velocity_delta op w).
Proof.
  intros Himp.
  rewrite !(velocity_delta_run _ _ Himp). simpl orbit.
  rewrite requested_apsides_ignore_anomaly.
  destruct (elements_for_apsides _ _) as [ex0 | [a' e']]; reflexivity.
Qed.

(** ** The named constructors *)

Lemma time_to_principal_target (target : R) (o : Orbit) :
  0 < T o -> principal target -> principal (M o) ->
  0 <= PropagateAnomalyTo_time_delta key_M target o < 2 * PI / n o.
Proof.
  intros HT [Ht0 Ht1] [Hm0 Hm1].
  pose proof (mean_motion_positive o HT) as Hn.
  unfold PropagateAnomalyTo_time_delta.
  destruct (Rlt_dec target (M o)); split;
    first [apply quotient_nonnegative; lra | apply quotient_lt; lra].
Qed.

Lemma apside_anomaly_principal (op : Operation) :
  principal (apside_anomaly op).
Proof.
  pose proof PI_RGT_0 as Hpi. unfold principal.
  destruct op as [| | | | | | | | [|] | |]; simpl; lra.
Qed.

(** X11.  Each of the six named constructors succeeds and builds two operations:
    first [PropagateAnomalyTo(M=...)] to the apside at which the
    operation's own [velocity_delta] samples the velocity, then the
    operation.  Applied to an orbit, the maneuver advances the epoch by the
    time to that apside and then rewrites the elements exactly as the bare
    operation would have; for a positive period and [orbit.M] in [0, 2π)
    the wait is not negative and shorter than one period. *)
Theorem named_constructor_waits_then_rewrites
  (op : Operation) (made : exn + Maneuver) (w : World) :
  named_constructor op = Some made ->
  let wait := PropagateAnomalyTo_time_delta key_M (apside_anomaly op)
                (orbit w) in
  let later := mkWorld (with_t (t (orbit w) + wait) (orbit w))
                       (attr_t :: writes w) in
  made = inr (mkManeuver [PropagateAnomalyTo key_M (apside_anomaly op); op])
  /\ Maneuver_apply
       (mkManeuver [PropagateAnomalyTo key_M (apside_anomaly op); op]) w
     = apply_operation op later
  /\ fst (apply_operation op later) = fst (apply_operation op w)
  /\ elements (orbit (snd (apply_operation op later)))
     = elements (orbit (snd (apply_operation op w)))
  /\ (0 < T (orbit w) -> principal (M (orbit w)) ->
      0 <= wait < 2 * PI / n (orbit w)).
Proof.
  intros Hmade wait later.
  assert (Himp : impulse_here op = true).
  { destruct op; simpl in Hmade; try discriminate; reflexivity. }
  split; [| split; [| split; [| split]]].
  - destruct op; simpl in Hmade; try discriminate;
      injection Hmade as <-; reflexivity.
  - unfold Maneuver_apply. simpl operations. simpl apply_operations.
    rewrite (bind_returns _ _ w later tt) by reflexivity.
    apply bind_unit_ret.
  - rewrite !(apply_operation_impulse _ _ Himp). subst later. simpl orbit.
    rewrite requested_apsides_ignore_epoch.
    destruct (elements_for_apsides _ _) as [ex0 | [a' e']]; reflexivity.
  - rewrite !(apply_operation_impulse _ _ Himp). subst later. simpl orbit.
    rewrite requested_apsides_ignore_epoch.
    destruct (elements_for_apsides _ _) as [ex0 | [a' e']]; reflexivity.
  - intros HT HM. apply time_to_principal_target; try assumption.
    apply apside_anomaly_principal.
Qed.

End Further.

(** ** Instances of the further theorems *)

Lemma ellipse_3_1_apsides :
  apocenter_radius ellipse_3_1 = 3 /\ pericenter_radius ellipse_3_1 = 1.
Proof.
  unfold apocenter_radius, pericenter_radius. simpl. split; field.
Qed.

Lemma guarded_refuses_low_apocenter :
  guarded_elements_for_apsides (1 / 2) (pericenter_radius ellipse_3_1)
  = inl UtilityError.
Proof.
  destruct ellipse_3_1_apsides as [_ ->].
  unfold guarded_elements_for_apsides.
  destruct (Rlt_dec 0 1); [| reflexivity].
  destruct (Rle_dec 1 (1 / 2)); [lra | reflexivity].
Qed.

Lemma guarded_rewrite_refused :
  fst (apply_operation (K := guarded) (SetApocenterRadiusTo (1 / 2))
         (mkWorld ellipse_3_1 [])) = inl UtilityError.
Proof.
  rewrite (@apply_operation_impulse guarded) by reflexivity.
  simpl. rewrite guarded_refuses_low_apocenter. reflexivity.
Qed.

Lemma impulse_rewrite_all_or_nothing_witness :
  impulse_here (K := guarded) (SetApocenterRadiusTo (1 / 2)) = true
  /\ fst (apply_operation (K := guarded) (SetApocenterRadiusTo (1 / 2))
            (mkWorld ellipse_3_1 [])) = inl UtilityError
  /\ snd (apply_operation (K := guarded) (SetApocenterRadiusTo (1 / 2))
            (mkWorld ellipse_3_1 [])) = mkWorld ellipse_3_1 [].
Proof.
  destruct (@impulse_rewrite_all_or_nothing guarded
              (SetApocenterRadiusTo (1 / 2)) (mkWorld ellipse_3_1 []) eq_refl)
    as [Hiff [Hsame _]].
  assert (Hraise : fst (apply_operation (K := guarded)
                          (SetApocenterRadiusTo (1 / 2))
                          (mkWorld ellipse_3_1 [])) = inl UtilityError).
  { apply Hiff. exact guarded_refuses_low_apocenter. }
  split; [reflexivity |]. split; [exact Hraise |].
  exact (Hsame UtilityError Hraise).
Defined.

Lemma impulse_rewrite_reaches_requested_apsides_witness :
  impulse_here (K := kepler) (SetApocenterRadiusTo 5) = true
  /\ @converts_apsides kepler
  /\ 0 < pericenter_radius ellipse_3_1
  /\ pericenter_radius ellipse_3_1 <= 5
  /\ apocenter_radius
       (orbit (snd (apply_operation (K := kepler) (SetApocenterRadiusTo 5)
                      (mkWorld ellipse_3_1 []))))
     = 5.
Proof.
  destruct ellipse_3_1_apsides as [Hap Hpe].
  assert (H0 : 0 < pericenter_radius ellipse_3_1) by (rewrite Hpe; lra).
  assert (H1 : pericenter_radius ellipse_3_1 <= 5) by (rewrite Hpe; lra).
  split; [reflexivity |]. split; [exact kepler_converts_apsides |].
  split; [exact H0 |]. split; [exact H1 |].
  apply (@impulse_rewrite_reaches_requested_apsides kepler
           (SetApocenterRadiusTo 5) (mkWorld ellipse_3_1 []) eq_refl
           kepler_converts_apsides H0 H1).
Defined.

Lemma setter_applied_twice_witness :
  sets_apsis (K := kepler) (SetPericenterRadiusTo 2) = true
  /\ @converts_apsides kepler
  /\ 0 < 2 /\ 2 <= apocenter_radius ellipse_3_1
  /\ exists w1 w2,
       apply_operation (K := kepler) (SetPericenterRadiusTo 2)
         (mkWorld ellipse_3_1 []) = (inr tt, w1)
       /\ apply_operation (SetPericenterRadiusTo 2) w1 = (inr tt, w2)
       /\ orbit w2 = orbit w1.
Proof.
  destruct ellipse_3_1_apsides as [Hap Hpe].
  assert (H1 : 2 <= apocenter_radius ellipse_3_1) by (rewrite Hap; lra).
  split; [reflexivity |]. split; [exact kepler_converts_apsides |].
  split; [lra |]. split; [exact H1 |].
  destruct (@setter_applied_twice kepler (SetPericenterRadiusTo 2)
              (mkWorld ellipse_3_1 []) eq_refl kepler_converts_apsides
              ltac:(simpl; lra) H1)
    as [w1 [w2 [Hfirst [Hsecond [Hsame _]]]]].
  exists w1, w2. repeat split; assumption.
Defined.

Lemma change_by_then_back_witness :
  @converts_apsides kepler
  /\ 0 < a ellipse_3_1 /\ 0 <= e ellipse_3_1 < 1
  /\ pericenter_radius ellipse_3_1 <= apocenter_radius ellipse_3_1 + 1
  /\ exists w',
       apply_operations (K := kepler)
         [ChangeApocenterBy 1; ChangeApocenterBy (- 1)]
         (mkWorld ellipse_3_1 []) = (inr tt, w')
       /\ orbit w' = ellipse_3_1.
Proof.
  destruct ellipse_3_1_apsides as [Hap Hpe].
  assert (Ha : 0 < a ellipse_3_1) by (simpl; lra).
  assert (He : 0 <= e ellipse_3_1 < 1) by (simpl; lra).
  assert (Hup : pericenter_radius ellipse_3_1
                <= apocenter_radius ellipse_3_1 + 1)
    by (rewrite Hap, Hpe; lra).
  split; [exact kepler_converts_apsides |].
  split; [exact Ha |]. split; [exact He |]. split; [exact Hup |].
  destruct (@change_by_then_back kepler 1 (mkWorld ellipse_3_1 [])
              kepler_converts_apsides Ha He) as [Hapo _].
  exact (Hapo Hup).
Defined.

Lemma propagate_to_wraps_at_most_once_witness :
  0 < T (Collaborators := kepler) ellipse_3_1
  /\ PropagateAnomalyTo_time_delta (K := kepler) key_M (- 9) ellipse_3_1 < 0.
Proof.
  split; [exact ellipse_3_1_period |].
  destruct (@propagate_to_wraps_at_most_once kepler key_M (- 9) ellipse_3_1
              ellipse_3_1_period) as [_ [_ [Hneg _]]].
  apply Hneg. simpl. pose proof PI_4 as Hpi. lra.
Defined.

Lemma propagate_by_whole_revolutions_witness :
  T (Collaborators := kepler) ellipse_3_1 <> 0
  /\ PropagateAnomalyBy_time_delta (K := kepler) key_f
       (1 + IZR (- 2) * (2 * PI)) ellipse_3_1
     = PropagateAnomalyBy_time_delta key_f 1 ellipse_3_1
       + IZR (- 2) * T ellipse_3_1.
Proof.
  assert (HT : T (Collaborators := kepler) ellipse_3_1 <> 0).
  { pose proof ellipse_3_1_period as H. simpl. lra. }
  split; [exact HT |].
  apply (@propagate_by_whole_revolutions kepler key_f 1 (- 2) ellipse_3_1 HT).
Defined.

Lemma velocity_delta_value_witness :
  impulse_here (K := guarded) (SetApocenterRadiusTo (1 / 2)) = true
  /\ fst (velocity_delta (K := guarded) (SetApocenterRadiusTo (1 / 2))
            (mkWorld ellipse_3_1 [])) = inl UtilityError.
Proof.
  split; [reflexivity |].
  apply (@velocity_delta_value guarded (SetApocenterRadiusTo (1 / 2))
           (mkWorld ellipse_3_1 []) eq_refl).
  exact guarded_rewrite_refused.
Defined.

Lemma velocity_delta_ignores_current_anomaly_witness :
  impulse_here (K := kepler) (Circularise false) = true
  /\ fst (velocity_delta (K := kepler) (Circularise false)
            (mkWorld (with_M 1 ellipse_3_1) []))
     = fst (velocity_delta (Circularise false) (mkWorld ellipse_3_1 [])).
Proof.
  split; [reflexivity |].
  apply (@velocity_delta_ignores_current_anomaly kepler (Circularise false)
           (mkWorld ellipse_3_1 []) 1 eq_refl).
Defined.

Lemma named_constructor_waits_then_rewrites_witness :
  named_constructor (K := kepler) (ChangePericenterBy 1)
  = Some (change_pericenter_by 1)
  /\ change_pericenter_by (K := kepler) 1
     = inr (mkManeuver [PropagateAnomalyTo key_M PI; ChangePericenterBy 1]).
Proof.
  split; [reflexivity |].
  apply (@named_constructor_waits_then_rewrites kepler (ChangePericenterBy 1)
           (change_pericenter_by 1) (mkWorld ellipse_3_1 []) eq_refl).
Defined.

(** ** Keyword order *)

From Stdlib Require Import Permutation.

Lemma drop_None_permutation {A : Type} (l l' : list (string * option A)) :
  Permutation l l' -> Permutation (drop_None l) (drop_None l').
Proof.
  induction 1 as [| [name [x |]] l l' Hperm IH
                  | [name1 [x1 |]] [name2 [x2 |]] l
                  | l l' l'' H1 IH1 H2 IH2]; simpl.
  - constructor.
  - now constructor.
  - assumption.
  - apply perm_swap.
  - apply Permutation_refl.
  - apply Permutation_refl.
  - apply Permutation_refl.
  - now apply Permutation_trans with (drop_None l').
Qed.

Lemma no_filtered_name_permutation {A : Type} (p : string -> bool)
  (l l' : list (string * option A)) :
  Permutation l l' ->
  is_nil (filter p (map fst l)) = is_nil (filter p (map fst l')).
Proof.
  induction 1 as [| [name x] l l' Hperm IH
                  | [name1 x1] [name2 x2] l
                  | l l' l'' H1 IH1 H2 IH2]; simpl.
  - reflexivity.
  - destruct (p name); simpl; [reflexivity | assumption].
  - destruct (p name1), (p name2); reflexivity.
  - congruence.
Qed.

Lemma anomaly_kwargs_init_permutation {A : Type}
  (l l' : list (string * option A)) :
  Permutation l l' -> anomaly_kwargs_init l = anomaly_kwargs_init l'.
Proof.
  intros Hperm. unfold anomaly_kwargs_init. cbv zeta.
  rewrite (no_filtered_name_permutation _ l l' Hperm).
  destruct (negb (is_nil (filter _ (map fst l')))); [reflexivity |].
  assert (Hnil : is_nil l = is_nil l').
  { destruct l, l'; try reflexivity.
    - apply Permutation_nil in Hperm. discriminate.
    - apply Permutation_sym, Permutation_nil in Hperm. discriminate. }
  rewrite Hnil. destruct (is_nil l'); [reflexivity |].
  pose proof (drop_None_permutation l l' Hperm) as Hdrop.
  rewrite !count_not_None_drop.
  rewrite (Permutation_length Hdrop).
  destruct (1 <? List.length (drop_None l'))%nat eqn:Hmany; [reflexivity |].
  apply Nat.ltb_ge in Hmany.
  destruct (drop_None l') as [| kv [| kv2 more]] eqn:Hl'.
  - apply Permutation_sym, Permutation_nil in Hdrop. now rewrite Hdrop.
  - apply Permutation_sym, Permutation_length_1_inv in Hdrop.
    now rewrite Hdrop.
  - simpl in Hmany. lia.
Qed.

(** X12.  The order in which the keywords of [PropagateAnomalyTo] and
    [PropagateAnomalyBy] are written never matters, neither for the object
    built nor for the exception raised, although [__init__] takes the
    anomaly out of the dictionary with [popitem], which depends on
    insertion order. *)
Theorem keyword_order_is_irrelevant {K : Collaborators}
  (kwargs kwargs' : list (string * option R)) :
  Permutation kwargs kwargs' ->
  new_PropagateAnomalyTo kwargs = new_PropagateAnomalyTo kwargs'
  /\ new_PropagateAnomalyBy kwargs = new_PropagateAnomalyBy kwargs'.
Proof.
  intros Hperm.
  unfold new_PropagateAnomalyTo, new_PropagateAnomalyBy, make_time_operation.
  rewrite (anomaly_kwargs_init_permutation kwargs kwargs' Hperm).
  split; reflexivity.
Qed.

Lemma keyword_order_is_irrelevant_witness :
  Permutation [("f", None); ("M", Some 1)]%string
              [("M", Some 1); ("f", None)]%string
  /\ new_PropagateAnomalyTo (K := kepler) [("f", None); ("M", Some 1)]%string
     = inr (PropagateAnomalyTo key_M 1).
Proof.
  assert (Hperm : Permutation [("f", None); ("M", Some 1)]%string
                              [("M", Some 1); ("f", None)]%string)
    by apply perm_swap.
  split; [exact Hperm |].
  destruct (@keyword_order_is_irrelevant kepler _ _ Hperm) as [Hto _].
  rewrite Hto. reflexivity.
Defined.

(** ** The velocity path at the apside *)

Lemma kepler_true_from_mean_0 (ecc : R) : kepler_true_from_mean ecc 0 = 0.
Proof. unfold kepler_true_from_mean. rewrite sin_0. ring. Qed.

Lemma kepler_true_from_mean_PI (ecc : R) : kepler_true_from_mean ecc PI = PI.
Proof. unfold kepler_true_from_mean. rewrite sin_PI. ring. Qed.

(** Vis-viva and angular momentum at the pericenter of the ellipse
    [(a', e')], where the radius is [a'(1 - e')] and the velocity is
    transverse. *)
Lemma pericenter_velocity_gives_elements (mu a' e' q : R) :
  0 < mu -> 0 < a' -> 0 <= e' < 1 ->
  q * q = mu / (a' * (1 - e' * e')) ->
  let r := a' * (1 - e') in
  let vt := q * (1 + e') in
  2 / r - (0 * 0 + vt * vt) / mu = / a'
  /\ 1 - (r * vt) * (r * vt) / mu / a' = e' * e'.
Proof.
  intros Hmu Ha' [He0 He1] Hq r vt.
  assert (Hee : 0 < 1 - e' * e') by nra.
  assert (Hvt : vt * vt = q * q * ((1 + e') * (1 + e')))
    by (unfold vt; ring).
  split.
  - rewrite Hvt, Hq. unfold r. field. repeat split; lra.
  - replace (r * vt * (r * vt)) with (r * r * (vt * vt)) by ring.
    rewrite Hvt, Hq. unfold r. field. repeat split; lra.
Qed.

(** The same at the apocenter, where the radius is [a'(1 + e')]. *)
Lemma apocenter_velocity_gives_elements (mu a' e' q : R) :
  0 < mu -> 0 < a' -> 0 <= e' < 1 ->
  q * q = mu / (a' * (1 - e' * e')) ->
  let r := a' * (1 + e') in
  let vt := q * (1 - e') in
  2 / r - (0 * 0 + vt * vt) / mu = / a'
  /\ 1 - (r * vt) * (r * vt) / mu / a' = e' * e'.
Proof.
  intros Hmu Ha' [He0 He1] Hq r vt.
  assert (Hee : 0 < 1 - e' * e') by nra.
  assert (Hvt : vt * vt = q * q * ((1 - e') * (1 - e')))
    by (unfold vt; ring).
  split.
  - rewrite Hvt, Hq. unfold r. field. repeat split; lra.
  - replace (r * vt * (r * vt)) with (r * r * (vt * vt)) by ring.
    rewrite Hvt, Hq. unfold r. field. repeat split; lra.
Qed.

Lemma kepler_recovers_elements : @setter_recovers_elements kepler.
Proof.
  intros o a' e' Hmu Ha [He0 He1] Ha' [He0' He1'] Hwhere.
  assert (Hee : 0 < 1 - e' * e') by nra.
  assert (Hk : 0 <= body_mu o / (a' * (1 - e' * e'))).
  { left. apply Rdiv_lt_0_compat; [assumption |].
    apply Rmult_lt_0_compat; assumption. }
  pose proof (sqrt_sqrt _ Hk) as Hq.
  set (q := sqrt (body_mu o / (a' * (1 - e' * e')))) in *.
  unfold elements. simpl.
  unfold kepler_set_velocity, kepler_v. simpl.
  destruct Hwhere as [[HM Hr] | [HM Hr]]; rewrite HM.
  - rewrite !kepler_true_from_mean_0, sin_0, cos_0.
    unfold pericenter_radius in Hr.
    replace (a o * (1 - e o * e o) / (1 + e o * 1)) with (a' * (1 - e'))
      by (rewrite Hr; field; lra).
    fold q.
    replace (q * (e' * 0)) with 0 by ring.
    replace (q * (1 + e' * 1)) with (q * (1 + e')) by ring.
    destruct (pericenter_velocity_gives_elements (body_mu o) a' e' q
                Hmu Ha' (conj He0' He1') Hq) as [H1 H2].
    rewrite H1, Rinv_inv, H2. f_equal. now apply sqrt_square.
  - rewrite !kepler_true_from_mean_PI, sin_PI, cos_PI.
    unfold apocenter_radius in Hr.
    replace (a o * (1 - e o * e o) / (1 + e o * -1)) with (a' * (1 + e'))
      by (rewrite Hr; field; lra).
    fold q.
    replace (q * (e' * 0)) with 0 by ring.
    replace (q * (1 + e' * -1)) with (q * (1 - e')) by ring.
    destruct (apocenter_velocity_gives_elements (body_mu o) a' e' q
                Hmu Ha' (conj He0' He1') Hq) as [H1 H2].
    rewrite H1, Rinv_inv, H2. f_equal. now apply sqrt_square.
Qed.

Section VelocityPath.

Context {K : Collaborators}.

Lemma with_own_M (o : Orbit) : with_M (M o) o = o.
Proof. destruct o. reflexivity. Qed.

Lemma apsides_give_ellipse (ra rp a' e' : R) :
  0 < rp -> rp <= ra -> a' * (1 + e') = ra -> a' * (1 - e') = rp ->
  0 < a' /\ 0 <= e' < 1.
Proof.
  intros Hrp Hle Hap Hpe.
  assert (Ha' : 0 < a') by lra.
  split; [assumption |]. split.
  - destruct (Rle_lt_dec 0 e') as [H | H]; [assumption | exfalso; nra].
  - destruct (Rlt_le_dec e' 1) as [H | H]; [assumption | exfalso; nra].
Qed.

(** The apsis that an operation leaves alone is the one at which its
    [velocity_delta] samples the velocity. *)
Lemma requested_apsis_kept (op : Operation) (o : Orbit) :
  impulse_here op = true ->
  (apside_anomaly op = 0
   /\ snd (requested_apsides op o) = pericenter_radius o)
  \/ (apside_anomaly op = PI
      /\ fst (requested_apsides op o) = apocenter_radius o).
Proof.
  destruct op as [| | | | | | | | [|] | |]; simpl; intros H;
    try discriminate; auto.
Qed.

(** A maneuver takes the velocity-delta branch on an impulse operation
    that has no [__apply__]. *)
Lemma without_apply_takes_velocity_path (op : Operation) (w : World) :
  branch_taken (without_apply op) = VelocityDelta
  /\ Maneuver_apply (new_Maneuver (inl (without_apply op))) w
     = apply_velocity_delta op w.
Proof.
  split; [reflexivity |].
  unfold Maneuver_apply, new_Maneuver. simpl operations.
  simpl apply_operations. rewrite bind_unit_ret. reflexivity.
Qed.

(** C1.  Take one of the seven impulse operations of the module and an
    elliptical orbit that is at the operation's apside ([orbit.M = 0] for
    the apocenter operations and [Circularise(False)], [orbit.M = pi] for
    the pericenter operations and [Circularise(True)]), with requested
    radii that are apsides of an ellipse.  A [Maneuver] given the operation
    runs its direct rewrite.  A [Maneuver] given the operation without the
    [__apply__] shortcut adds the velocity delta to [orbit.v], and that
    ends with the same [(a, e)] as the direct rewrite, provided the
    collaborators behave as the specification has them: velocities are
    vectors, [elements_for_apsides] converts apsides, and assigning
    [orbit.v] at an apside gives the elements that belong to the
    velocity. *)
Theorem velocity_path_agrees_at_the_apside (op : Operation) (w : World) :
  impulse_here op = true ->
  converts_apsides -> setter_recovers_elements -> velocity_arithmetic ->
  0 < body_mu (orbit w) -> 0 < a (orbit w) -> 0 <= e (orbit w) < 1 ->
  M (orbit w) = apside_anomaly op ->
  0 < snd (requested_apsides op (orbit w)) ->
  snd (requested_apsides op (orbit w))
  <= fst (requested_apsides op (orbit w)) ->
  exists direct,
    get___apply__ op = Some direct
    /\ Maneuver_apply (new_Maneuver (inl op)) w = direct w
    /\ fst (direct w) = inr tt
    /\ branch_taken (without_apply op) = VelocityDelta
    /\ Maneuver_apply (new_Maneuver (inl (without_apply op))) w
       = apply_velocity_delta op w
    /\ fst (Maneuver_apply (new_Maneuver (inl (without_apply op))) w)
       = inr tt
    /\ elements
         (orbit (snd (Maneuver_apply
                        (new_Maneuver (inl (without_apply op))) w)))
       = elements (orbit (snd (direct w))).
Proof.
  intros Himp Hefa Hset Hvec Hmu Ha He HM Hrp Hle.
  destruct (impulse_here_has_apply op Himp) as [direct Hget].
  assert (Hstep : apply_operation op w = direct w).
  { unfold apply_operation. now rewrite Hget. }
  destruct (Hefa _ _ Hrp Hle) as [a' [e' [Hcall [Hap Hpe]]]].
  destruct (apsides_give_ellipse _ _ a' e' Hrp Hle Hap Hpe) as [Ha' He'].
  assert (Hdirect : direct w
                    = (inr tt, mkWorld (with_e e' (with_a a' (orbit w)))
                                       (attr_e :: attr_a :: writes w))).
  { rewrite <- Hstep, (apply_operation_impulse op w Himp), Hcall.
    reflexivity. }
  assert (Hok : fst (direct w) = inr tt) by now rewrite Hdirect.
  destruct (without_apply_takes_velocity_path op w) as [Hbranch Htwin].
  pose proof (velocity_path_target op direct w Himp Hget Hok) as Hpath.
  cbv zeta in Hpath. rewrite Hdirect in Hpath. simpl snd in Hpath.
  simpl orbit in Hpath at 3 4.
  exists direct.
  split; [assumption |].
  split.
  { unfold Maneuver_apply, new_Maneuver. simpl operations.
    simpl apply_operations. rewrite bind_unit_ret. exact Hstep. }
  split; [assumption |].
  split; [assumption |].
  split; [assumption |].
  rewrite Htwin, Hpath, Hdirect. simpl fst. simpl snd. simpl orbit.
  split; [reflexivity |].
  rewrite <- HM, with_own_M, Hvec.
  replace (e (with_e e' (with_a a' (orbit w)))) with e' by reflexivity.
  replace (a (with_e e' (with_a a' (orbit w)))) with a' by reflexivity.
  rewrite (Hset (orbit w) a' e' Hmu Ha He Ha' He').
  - reflexivity.
  - destruct (requested_apsis_kept op (orbit w) Himp) as [[H0 Hkept] | [Hpi Hkept]].
    + left. split; [congruence |]. now rewrite <- Hkept.
    + right. split; [congruence |]. now rewrite <- Hkept.
Qed.

End VelocityPath.

Lemma kepler_velocity_arithmetic : @velocity_arithmetic kepler.
Proof.
  intros [x1 x2] [y1 y2]. simpl. f_equal; ring.
Qed.

Lemma velocity_path_agrees_at_the_apside_witness :
  impulse_here (K := kepler) (SetApocenterRadiusTo 5) = true
  /\ @converts_apsides kepler
  /\ @setter_recovers_elements kepler
  /\ @velocity_arithmetic kepler
  /\ 0 < body_mu ellipse_3_1 /\ 0 < a ellipse_3_1
  /\ 0 <= e ellipse_3_1 < 1
  /\ M ellipse_3_1 = apside_anomaly (K := kepler) (SetApocenterRadiusTo 5)
  /\ 0 < pericenter_radius ellipse_3_1
  /\ pericenter_radius ellipse_3_1 <= 5
  /\ elements
       (orbit (snd (Maneuver_apply (K := kepler)
                      (new_Maneuver
                         (inl (without_apply (SetApocenterRadiusTo 5))))
                      (mkWorld ellipse_3_1 []))))
     = elements
         (orbit (snd (Maneuver_apply (K := kepler)
                        (new_Maneuver (inl (SetApocenterRadiusTo 5)))
                        (mkWorld ellipse_3_1 [])))).
Proof.
  destruct ellipse_3_1_apsides as [Hap Hpe].
  assert (Hmu : 0 < body_mu ellipse_3_1) by (simpl; lra).
  assert (Ha : 0 < a ellipse_3_1) by (simpl; lra).
  assert (He : 0 <= e ellipse_3_1 < 1) by (simpl; lra).
  assert (H0 : 0 < pericenter_radius ellipse_3_1) by (rewrite Hpe; lra).
  assert (H1 : pericenter_radius ellipse_3_1 <= 5) by (rewrite Hpe; lra).
  split; [reflexivity |].
  split; [exact kepler_converts_apsides |].
  split; [exact kepler_recovers_elements |].
  split; [exact kepler_velocity_arithmetic |].
  split; [exact Hmu |]. split; [exact Ha |]. split; [exact He |].
  split; [reflexivity |]. split; [exact H0 |]. split; [exact H1 |].
  destruct (@velocity_path_agrees_at_the_apside kepler
              (SetApocenterRadiusTo 5) (mkWorld ellipse_3_1 []) eq_refl
              kepler_converts_apsides kepler_recovers_elements
              kepler_velocity_arithmetic Hmu Ha He eq_refl H0 H1)
    as [direct [_ [Hrun [_ [_ [_ [_ Hsame]]]]]]].
  rewrite Hsame, Hrun. reflexivity.
Defined.

(** The orbit with apsides 3 and 1, at its apocenter. *)
Lemma at_apocenter_radius :
  a (with_M PI ellipse_3_1)
  * (1 - e (with_M PI ellipse_3_1) * e (with_M PI ellipse_3_1))
  / (1 + e (with_M PI ellipse_3_1)
         * cos (kepler_true_from_mean (e (with_M PI ellipse_3_1))
                  (M (with_M PI ellipse_3_1))))
  = 3.
Proof.
  simpl. rewrite kepler_true_from_mean_PI, cos_PI. field.
Qed.

Lemma velocity_path_misses_off_the_apside :
  elements
    (orbit (snd (Maneuver_apply (K := kepler)
                   (new_Maneuver (inl (without_apply (Circularise false))))
                   (mkWorld (with_M PI ellipse_3_1) []))))
  <> elements
       (orbit (snd (Maneuver_apply (K := kepler)
                      (new_Maneuver (inl (Circularise false)))
                      (mkWorld (with_M PI ellipse_3_1) [])))).
Proof.
  destruct (@without_apply_takes_velocity_path kepler (Circularise false)
              (mkWorld (with_M PI ellipse_3_1) [])) as [_ ->].
  rewrite (@velocity_path_target kepler (Circularise false)
             (Circularise_apply false)
             (mkWorld (with_M PI ellipse_3_1) []) eq_refl eq_refl eq_refl).
  cbv zeta.
  match goal with
  | |- context [set_velocity ?x _] => generalize x
  end.
  intros vel Heq. apply (f_equal fst) in Heq.
  change (/ (2 / (a (with_M PI ellipse_3_1)
                  * (1 - e (with_M PI ellipse_3_1) * e (with_M PI ellipse_3_1))
                  / (1 + e (with_M PI ellipse_3_1)
                         * cos (kepler_true_from_mean
                                  (e (with_M PI ellipse_3_1))
                                  (M (with_M PI ellipse_3_1)))))
             - (fst vel * fst vel + snd vel * snd vel) / 1)
          = (pericenter_radius (with_M PI ellipse_3_1)
             + pericenter_radius (with_M PI ellipse_3_1)) / 2) in Heq.
  rewrite at_apocenter_radius in Heq.
  replace ((pericenter_radius (with_M PI ellipse_3_1)
            + pericenter_radius (with_M PI ellipse_3_1)) / 2) with 1 in Heq
    by (unfold pericenter_radius; simpl; field).
  apply (f_equal Rinv) in Heq. rewrite Rinv_inv, Rinv_1 in Heq.
  pose proof (Rle_0_sqr (fst vel)) as H1.
  pose proof (Rle_0_sqr (snd vel)) as H2.
  unfold Rsqr in H1, H2. lra.
Qed.

(** ** No anomaly at all *)

(** C3.  The constructors do not raise an argument error for every invalid
    call.  When keywords are given and every value is [None], as in
    [PropagateAnomalyTo(M=None)], the check for a missing argument (made
    on the dictionary before the [None] values are removed) lets the call
    through and [popitem] on the emptied dictionary raises [KeyError],
    which is none of the exceptions [__init__] raises for bad arguments;
    the call with no keyword at all does raise the intended
    [TypeError]. *)
Theorem all_None_keywords_raise_KeyError {K : Collaborators} :
  new_PropagateAnomalyTo [("M", None)]%string = inl KeyError_popitem
  /\ new_PropagateAnomalyBy [("M", None); ("E", None); ("f", None)]%string
     = inl KeyError_popitem
  /\ argument_error KeyError_popitem = false
  /\ new_PropagateAnomalyTo [] = inl TypeError_RequiredArgumentMissing
  /\ argument_error TypeError_RequiredArgumentMissing = true
  /\ (forall kwargs : list (string * option R),
        ~ unknown_keyword kwargs -> kwargs <> [] ->
        count_not_None kwargs = 0%nat ->
        new_PropagateAnomalyTo kwargs = inl KeyError_popitem
        /\ new_PropagateAnomalyBy kwargs = inl KeyError_popitem).
Proof.
  repeat split.
  - unfold new_PropagateAnomalyTo, make_time_operation.
    destruct (anomaly_kwargs_init_exception kwargs) as [_ [_ [_ Hkey]]].
    now rewrite Hkey.
  - unfold new_PropagateAnomalyBy, make_time_operation.
    destruct (anomaly_kwargs_init_exception kwargs) as [_ [_ [_ Hkey]]].
    now rewrite Hkey.
Qed.

(** ** Negative time deltas *)



